(** * The searchable-selection widget core

    A shallow embedding of the [Select], [Typeahead] and
    [DynamicTypeahead] web components
    (web-components/select/select.js, typeahead.js, dynamic-typeahead.js)
    together with the pieces of [Core] and [Dom] they rely on.

    The embedding follows the JavaScript closely:

    - a widget is a record of its fields; every method is a state
      transformer in a small monad whose failure case is a JavaScript
      [TypeError] that keeps the state reached so far (an exception does
      not roll back earlier assignments);
    - the entries built by [make_store_nodes] are objects compared by
      reference.  An entry is represented by the identifier that
      [Core.next_id] gives to its [li] node together with the fields that
      are never reassigned ([data], [content]); the mutable [next] and
      [prev] links live in a store indexed by that identifier;
    - [null], [undefined] and object references are kept apart, because
      the code compares with [!==] and dereferences without checks;
    - a JavaScript string is the list of its UTF-16 code units;
    - an [async] method is split at its [await]: the part before runs
      inside the event that called it, the part after is a continuation
      that runs when the awaited promise settles.

    Presentation-only DOM effects (CSS classes, ARIA attributes, the
    highlighted [innerHTML], scroll offsets, text selection and
    [preventDefault]) carry no widget state and are left out; where such
    a call can fail, the failure is kept. *)

From stdpp Require Import gmap list.

(** ** JavaScript values *)

(** A string is its sequence of UTF-16 code units. *)
Definition jsstring : Type := list N.

(** [String.prototype.startsWith] at position 0. *)
Fixpoint starts_with (s sub : jsstring) {struct sub} : bool :=
  match sub, s with
  | [], _ => true
  | _ :: _, [] => false
  | c :: sub', d :: s' => if N.eqb c d then starts_with s' sub' else false
  end.

(** [String.prototype.includes]: a left-to-right scan for the first
    position at which [sub] starts. *)
Fixpoint includes (s sub : jsstring) : bool :=
  if starts_with s sub then true
  else match s with
       | [] => false
       | _ :: s' => includes s' sub
       end.

(** A raw record handed to the widget.  [rec_key] stands for whatever
    else the host stores in the object; [rec_label] and [rec_node] are
    the two properties the default derivation functions read. *)
Record record : Type := Record_ {
  rec_key : nat;
  rec_label : option jsstring;
  rec_node : option nat
}.

(** The renderable content of an entry: the record's own node, or the
    [div] that the default [fn_node] creates from the label. *)
Inductive content_node : Type :=
| RecordNode (n : nat)
| LabelDiv (html : jsstring).

(** An entry object [{ data, node, content, next, prev }], without its
    mutable links.  [eid] is the number in the [auto_<n>] id of [node]. *)
Record entry : Type := Entry {
  eid : nat;
  data : record;
  content : content_node
}.

(** What a variable holding an entry may contain. *)
Inductive ref : Type :=
| Null
| Undefined
| Obj (e : entry).

(** Truthiness: only an object is truthy. *)
Definition truthy (r : ref) : bool :=
  match r with Obj _ => true | _ => false end.

(** Strict equality [===] on such values: objects by reference. *)
Definition strict_eq (a b : ref) : bool :=
  match a, b with
  | Null, Null => true
  | Undefined, Undefined => true
  | Obj x, Obj y => Nat.eqb (eid x) (eid y)
  | _, _ => false
  end.

(** The mutable part of an entry. *)
Record links : Type := Links { next : ref; prev : ref }.

(** Array indexing [a[i]]: [undefined] out of range. *)
Definition index (a : list entry) (i : nat) : ref :=
  match a !! i with
  | Some e => Obj e
  | None => Undefined
  end.

(** [a[a.length - 1]]; for an empty array the index is [-1]. *)
Definition index_last (a : list entry) : ref :=
  match length a with
  | O => Undefined
  | S n => index a n
  end.

(** The three classes of the hierarchy. *)
Inductive variant : Type := Select | Typeahead | DynamicTypeahead.

(** A node-derivation function: the default installed by [initialize],
    which reads [this.fn_label] when it is called, or one set by the
    host. *)
Inductive node_fn : Type :=
| DefaultNode
| CustomNode (f : record -> content_node).

(** The rest of an [async] handler after its [await this.refresh(value)]. *)
Inductive continuation : Type :=
| AfterSelectClick
| AfterTypeaheadClick (value : jsstring)
| AfterInput (value : jsstring).

Section Widget.

(** JavaScript numbers with their addition, and
    [String.prototype.toLowerCase], are taken from the host. *)
Context {num : Type}.
Variable add : num -> num -> num.
Variable toLowerCase : jsstring -> jsstring.

(** What [getBoundingClientRect] of the input and the window scroll
    offsets currently are. *)
Record viewport : Type := Viewport {
  rect_bottom : num;
  rect_left : num;
  rect_width : num;
  scrollX : num;
  scrollY : num
}.

(** The [top], [left] and [width] of the dropdown container's style, in
    pixels. *)
Record style : Type := Style { top : num; left : num; width : num }.

(** ** The widget state *)

Record widget : Type := Widget {
  kind : variant;
  fn_label : option (record -> jsstring);
  fn_node : option node_fn;
  cycle_when_closed : bool;
  min_characters : option nat;
  handle_min_characters : bool;
  store : option (list entry);
  items : option (list entry);
  item : ref;
  active : ref;
  is_open : bool;
  input_value : jsstring;
  (* the dropdown container is a child of document.body *)
  attached : bool;
  (* resize_handler is registered on window *)
  resize_listening : bool;
  placement : option style;
  win : viewport;
  (* next/prev of every entry; an entry never linked has both null *)
  heap : gmap nat links;
  (* Core.#auto_id *)
  auto_id : nat;
  (* the records carried by the select-change events emitted so far *)
  emitted : list record;
  (* suspended handlers waiting for store_fn *)
  pending : list continuation;
  (* the single timeout slot of Core.debounce *)
  timer : bool
}.

Definition set_fn_label (v : option (record -> jsstring)) (w : widget) : widget :=
  Widget
    (kind w) v (fn_node w) (cycle_when_closed w) (min_characters w)
    (handle_min_characters w) (store w) (items w) (item w) (active w)
    (is_open w) (input_value w) (attached w) (resize_listening w)
    (placement w) (win w) (heap w) (auto_id w) (emitted w) (pending w)
    (timer w).

Definition set_fn_node (v : option node_fn) (w : widget) : widget :=
  Widget
    (kind w) (fn_label w) v (cycle_when_closed w) (min_characters w)
    (handle_min_characters w) (store w) (items w) (item w) (active w)
    (is_open w) (input_value w) (attached w) (resize_listening w)
    (placement w) (win w) (heap w) (auto_id w) (emitted w) (pending w)
    (timer w).

Definition set_cycle_when_closed (v : bool) (w : widget) : widget :=
  Widget
    (kind w) (fn_label w) (fn_node w) v (min_characters w)
    (handle_min_characters w) (store w) (items w) (item w) (active w)
    (is_open w) (input_value w) (attached w) (resize_listening w)
    (placement w) (win w) (heap w) (auto_id w) (emitted w) (pending w)
    (timer w).

Definition set_min_characters (v : option nat) (w : widget) : widget :=
  Widget
    (kind w) (fn_label w) (fn_node w) (cycle_when_closed w) v
    (handle_min_characters w) (store w) (items w) (item w) (active w)
    (is_open w) (input_value w) (attached w) (resize_listening w)
    (placement w) (win w) (heap w) (auto_id w) (emitted w) (pending w)
    (timer w).

Definition set_handle_min_characters (v : bool) (w : widget) : widget :=
  Widget
    (kind w) (fn_label w) (fn_node w) (cycle_when_closed w)
    (min_characters w) v (store w) (items w) (item w) (active w)
    (is_open w) (input_value w) (attached w) (resize_listening w)
    (placement w) (win w) (heap w) (auto_id w) (emitted w) (pending w)
    (timer w).

Definition set_store (v : option (list entry)) (w : widget) : widget :=
  Widget
    (kind w) (fn_label w) (fn_node w) (cycle_when_closed w)
    (min_characters w) (handle_min_characters w) v (items w) (item w)
    (active w) (is_open w) (input_value w) (attached w)
    (resize_listening w) (placement w) (win w) (heap w) (auto_id w)
    (emitted w) (pending w) (timer w).

Definition set_items (v : option (list entry)) (w : widget) : widget :=
  Widget
    (kind w) (fn_label w) (fn_node w) (cycle_when_closed w)
    (min_characters w) (handle_min_characters w) (store w) v (item w)
    (active w) (is_open w) (input_value w) (attached w)
    (resize_listening w) (placement w) (win w) (heap w) (auto_id w)
    (emitted w) (pending w) (timer w).

Definition set_item (v : ref) (w : widget) : widget :=
  Widget
    (kind w) (fn_label w) (fn_node w) (cycle_when_closed w)
    (min_characters w) (handle_min_characters w) (store w) (items w) v
    (active w) (is_open w) (input_value w) (attached w)
    (resize_listening w) (placement w) (win w) (heap w) (auto_id w)
    (emitted w) (pending w) (timer w).

Definition set_active (v : ref) (w : widget) : widget :=
  Widget
    (kind w) (fn_label w) (fn_node w) (cycle_when_closed w)
    (min_characters w) (handle_min_characters w) (store w) (items w)
    (item w) v (is_open w) (input_value w) (attached w)
    (resize_listening w) (placement w) (win w) (heap w) (auto_id w)
    (emitted w) (pending w) (timer w).

Definition set_is_open (v : bool) (w : widget) : widget :=
  Widget
    (kind w) (fn_label w) (fn_node w) (cycle_when_closed w)
    (min_characters w) (handle_min_characters w) (store w) (items w)
    (item w) (active w) v (input_value w) (attached w) (resize_listening w)
    (placement w) (win w) (heap w) (auto_id w) (emitted w) (pending w)
    (timer w).

Definition set_input_value (v : jsstring) (w : widget) : widget :=
  Widget
    (kind w) (fn_label w) (fn_node w) (cycle_when_closed w)
    (min_characters w) (handle_min_characters w) (store w) (items w)
    (item w) (active w) (is_open w) v (attached w) (resize_listening w)
    (placement w) (win w) (heap w) (auto_id w) (emitted w) (pending w)
    (timer w).

Definition set_attached (v : bool) (w : widget) : widget :=
  Widget
    (kind w) (fn_label w) (fn_node w) (cycle_when_closed w)
    (min_characters w) (handle_min_characters w) (store w) (items w)
    (item w) (active w) (is_open w) (input_value w) v (resize_listening w)
    (placement w) (win w) (heap w) (auto_id w) (emitted w) (pending w)
    (timer w).

Definition set_resize_listening (v : bool) (w : widget) : widget :=
  Widget
    (kind w) (fn_label w) (fn_node w) (cycle_when_closed w)
    (min_characters w) (handle_min_characters w) (store w) (items w)
    (item w) (active w) (is_open w) (input_value w) (attached w) v
    (placement w) (win w) (heap w) (auto_id w) (emitted w) (pending w)
    (timer w).

Definition set_placement (v : option style) (w : widget) : widget :=
  Widget
    (kind w) (fn_label w) (fn_node w) (cycle_when_closed w)
    (min_characters w) (handle_min_characters w) (store w) (items w)
    (item w) (active w) (is_open w) (input_value w) (attached w)
    (resize_listening w) v (win w) (heap w) (auto_id w) (emitted w)
    (pending w) (timer w).

Definition set_win (v : viewport) (w : widget) : widget :=
  Widget
    (kind w) (fn_label w) (fn_node w) (cycle_when_closed w)
    (min_characters w) (handle_min_characters w) (store w) (items w)
    (item w) (active w) (is_open w) (input_value w) (attached w)
    (resize_listening w) (placement w) v (heap w) (auto_id w) (emitted w)
    (pending w) (timer w).

Definition set_heap (v : gmap nat links) (w : widget) : widget :=
  Widget
    (kind w) (fn_label w) (fn_node w) (cycle_when_closed w)
    (min_characters w) (handle_min_characters w) (store w) (items w)
    (item w) (active w) (is_open w) (input_value w) (attached w)
    (resize_listening w) (placement w) (win w) v (auto_id w) (emitted w)
    (pending w) (timer w).

Definition set_auto_id (v : nat) (w : widget) : widget :=
  Widget
    (kind w) (fn_label w) (fn_node w) (cycle_when_closed w)
    (min_characters w) (handle_min_characters w) (store w) (items w)
    (item w) (active w) (is_open w) (input_value w) (attached w)
    (resize_listening w) (placement w) (win w) (heap w) v (emitted w)
    (pending w) (timer w).

Definition set_emitted (v : list record) (w : widget) : widget :=
  Widget
    (kind w) (fn_label w) (fn_node w) (cycle_when_closed w)
    (min_characters w) (handle_min_characters w) (store w) (items w)
    (item w) (active w) (is_open w) (input_value w) (attached w)
    (resize_listening w) (placement w) (win w) (heap w) (auto_id w) v
    (pending w) (timer w).

Definition set_pending (v : list continuation) (w : widget) : widget :=
  Widget
    (kind w) (fn_label w) (fn_node w) (cycle_when_closed w)
    (min_characters w) (handle_min_characters w) (store w) (items w)
    (item w) (active w) (is_open w) (input_value w) (attached w)
    (resize_listening w) (placement w) (win w) (heap w) (auto_id w)
    (emitted w) v (timer w).

Definition set_timer (v : bool) (w : widget) : widget :=
  Widget
    (kind w) (fn_label w) (fn_node w) (cycle_when_closed w)
    (min_characters w) (handle_min_characters w) (store w) (items w)
    (item w) (active w) (is_open w) (input_value w) (attached w)
    (resize_listening w) (placement w) (win w) (heap w) (auto_id w)
    (emitted w) (pending w) v.

(** ** Computations that may throw *)

(** The outcome of running a piece of a method: a value and the new
    state, or a [TypeError] raised in the state reached so far. *)
Inductive result (A : Type) : Type :=
| Ok (a : A) (w : widget)
| TypeError (w : widget).

Arguments Ok {A} a w.
Arguments TypeError {A} w.

Definition M (A : Type) : Type := widget -> result A.

Definition ret {A} (a : A) : M A := fun w => Ok a w.

Definition bind {A B} (m : M A) (k : A -> M B) : M B :=
  fun w => match m w with
           | Ok a w' => k a w'
           | TypeError w' => TypeError w'
           end.

Definition throw {A} : M A := fun w => TypeError w.

Definition get {A} (f : widget -> A) : M A := fun w => Ok (f w) w.

Definition modify (f : widget -> widget) : M unit := fun w => Ok tt (f w).

Notation "'do' x <- m ; k" := (bind m (fun x => k))
  (at level 10, x name, m at level 100, k at level 200).
Notation "m ;; k" := (bind m (fun _ => k))
  (at level 100, k at level 200, right associativity).

(** The state in which a computation stops, whether it returned or threw;
    this is what the next event finds. *)
Definition state_of {A} (r : result A) : widget :=
  match r with
  | Ok _ w => w
  | TypeError w => w
  end.

(** Reading a property of something that must be an object. *)
Definition deref (r : ref) : M entry :=
  match r with
  | Obj e => ret e
  | _ => throw
  end.

(** Reading [.length] or indexing something that must be an array. *)
Definition array {A} (a : option A) : M A :=
  match a with
  | Some x => ret x
  | None => throw
  end.

(** [e.next] and [e.prev] *)
Definition links_of (h : gmap nat links) (e : entry) : links :=
  default (Links Null Null) (h !! eid e).

Definition get_next (e : entry) : M ref :=
  get (fun w => next (links_of (heap w) e)).

Definition get_prev (e : entry) : M ref :=
  get (fun w => prev (links_of (heap w) e)).

(** [e.next = v] and [e.prev = v] *)
Definition write_next (e : entry) (v : ref) (h : gmap nat links) : gmap nat links :=
  <[eid e := Links v (prev (links_of h e))]> h.

Definition write_prev (e : entry) (v : ref) (h : gmap nat links) : gmap nat links :=
  <[eid e := Links (next (links_of h e)) v]> h.

Definition put_next (e : entry) (v : ref) : M unit :=
  modify (fun w => set_heap (write_next e v (heap w)) w).

Definition put_prev (e : entry) (v : ref) : M unit :=
  modify (fun w => set_heap (write_prev e v (heap w)) w).

(** ** Select *)

(** [this.fn_label(r)]: calling a missing function throws. *)
Definition call_fn_label (r : record) : M jsstring :=
  do f <- get fn_label;
  match f with
  | Some g => ret (g r)
  | None => throw
  end.

(** The label function installed by [initialize]:
    [(item) => item.label || ""]. *)
Definition default_fn_label (r : record) : jsstring :=
  match rec_label r with
  | Some s => s
  | None => []
  end.

(** [this.fn_node(r)]; the default is
    [(item) => item.node || Dom.create("div", { innerHTML: this.fn_label(item) })]. *)
Definition call_fn_node (r : record) : M content_node :=
  do f <- get fn_node;
  match f with
  | Some DefaultNode =>
      match rec_node r with
      | Some n => ret (RecordNode n)
      | None => do s <- call_fn_label r; ret (LabelDiv s)
      end
  | Some (CustomNode g) => ret (g r)
  | None => throw
  end.

(** The [active] setter; its class and attribute updates are
    presentation only. *)
Definition set_active_ (value : ref) : M unit := modify (set_active value).

(** The [item] setter, likewise. *)
Definition set_item_ (value : ref) : M unit := modify (set_item value).

(** [get label() { return this.item && this.fn_label(this.item.data) || ""; }] *)
Definition label : M jsstring :=
  do it <- get item;
  match it with
  | Obj e => call_fn_label (data e)
  | _ => ret []
  end.

(** [get first() { return this.store[0].data; }] *)
Definition first : M record :=
  do st <- get store;
  do st <- array st;
  do e <- deref (index st 0);
  ret (data e).

(** [get last() { return this.store[this.store.length - 1].data; }] *)
Definition last : M record :=
  do st <- get store;
  do st <- array st;
  do e <- deref (index_last st);
  ret (data e).

(** [get selected() { return this.#item?.data; }]; [None] stands for
    [undefined]. *)
Definition selected (w : widget) : option record :=
  match item w with
  | Obj e => Some (data e)
  | _ => None
  end.

(** [empty()]: clears the list element and sets [items] to []. *)
Definition empty : M unit := modify (set_items (Some [])).

(** [Select.refresh(value)]: the callback of [filter] runs once per
    entry, in order. *)
Fixpoint filter_store (value : jsstring) (st : list entry) : M (list entry) :=
  match st with
  | [] => ret []
  | e :: st' =>
      do item_value <- call_fn_label (data e);
      let keep := includes (toLowerCase item_value) (toLowerCase value) in
      do rest <- filter_store value st';
      ret (if keep then e :: rest else rest)
  end.

Definition Select_refresh (value : jsstring) : M (list entry) :=
  do st <- get store;
  do st <- array st;
  filter_store value st.

(** [decorate_list_content(item_data, item_content, value)]: only the
    call of [fn_label] can be observed. *)
Definition decorate_list_content (item_data : record) (value : jsstring) : M unit :=
  do _ <- call_fn_label item_data; ret tt.

(** One turn of the loop of [fill]. *)
Definition fill_body (its : list entry) (mask : jsstring) (i : nat) : M unit :=
  do curr <- deref (index its i);
  decorate_list_content (data curr) mask;;
  put_next curr (index its ((i + 1) mod length its));;
  do n <- get_next curr;
  do n <- deref n;
  put_prev n (Obj curr).

Fixpoint for_each (body : nat -> M unit) (indices : list nat) : M unit :=
  match indices with
  | [] => ret tt
  | i :: rest => body i;; for_each body rest
  end.

(** [fill(items, mask)] *)
Definition fill (its : list entry) (mask : jsstring) : M unit :=
  modify (set_items (Some its));;
  for_each (fill_body its mask) (seq 0 (length its)).

(** [close_dropdown()] *)
Definition close_dropdown : M unit :=
  modify (set_attached false);;
  modify (set_resize_listening false).

(** [update_dropdown_position()] *)
Definition update_dropdown_position : M unit :=
  do o <- get is_open;
  if o then
    do v <- get win;
    modify (set_placement (Some (Style (add (rect_bottom v) (scrollY v))
                                       (add (rect_left v) (scrollX v))
                                       (rect_width v))))
  else ret tt.

(** [open_dropdown()] *)
Definition open_dropdown : M unit :=
  modify (set_attached true);;
  update_dropdown_position;;
  modify (set_resize_listening true).

(** [select_index(i)] *)
Definition select_index (i : nat) : M unit :=
  do st <- get store;
  do st <- array st;
  set_item_ (if Nat.eqb i (length st) then Null else index st i);;
  do l <- label;
  modify (set_input_value l).

(** [select(delegate)]: the index of the first record the delegate
    accepts, or [store.length]. *)
Fixpoint first_accepted (delegate : record -> nat -> bool) (st : list entry) (i : nat) : nat :=
  match st with
  | [] => i
  | e :: st' => if delegate (data e) i then i else first_accepted delegate st' (S i)
  end.

Definition select (delegate : record -> nat -> bool) : M unit :=
  do st <- get store;
  do st <- array st;
  select_index (first_accepted delegate st 0).

(** [reset()].  [Typeahead.reset] adds a text selection only. *)
Definition reset : M unit :=
  set_active_ Null;;
  modify (set_is_open false);;
  empty;;
  do l <- label;
  modify (set_input_value l).

(** [scroll_to(item)] reads [item.node]. *)
Definition scroll_to (it : ref) : M unit :=
  do _ <- deref it; ret tt.

(** [this.emit("select-change", { item: this.item.data })] *)
Definition emit_select_change : M unit :=
  do it <- get item;
  do e <- deref it;
  modify (fun w => set_emitted (emitted w ++ [data e]) w).

(** [on_li_click_handler(item, ev)] *)
Definition on_li_click_handler (it : ref) : M unit :=
  do current <- get item;
  set_item_ it;;
  reset;;
  close_dropdown;;
  do now <- get item;
  if strict_eq now current then ret tt else emit_select_change.

(** [on_input_blur_handler(ev)] *)
Definition on_input_blur_handler : M unit :=
  reset;;
  close_dropdown.

(** [make_store_nodes(value)]: one fresh entry per record, in order. *)
Fixpoint make_store_nodes (value : list record) : M (list entry) :=
  match value with
  | [] => ret []
  | r :: rs =>
      do id <- get (fun w => S (auto_id w));
      modify (set_auto_id id);;
      do c <- call_fn_node r;
      let e := Entry id r c in
      put_next e Null;;
      put_prev e Null;;
      do rest <- make_store_nodes rs;
      ret (e :: rest)
  end.

(** The [store] setter.  [Select] fills the list and selects the first
    entry; [Typeahead] (and so [DynamicTypeahead]) only builds the
    entries. *)
Definition set_store_ (value : list record) : M unit :=
  do st <- make_store_nodes value;
  modify (set_store (Some st));;
  do k <- get kind;
  match k with
  | Select => fill st [];; select_index 0
  | _ => ret tt
  end.

(** ** Typeahead and DynamicTypeahead *)

(** [value.length < this.min_characters]; a comparison with [undefined]
    is false. *)
Definition below_min (value : jsstring) (w : widget) : bool :=
  match min_characters w with
  | Some m => Nat.ltb (length value) m
  | None => false
  end.

(** What follows [await this.refresh(value)] in each async handler. *)
Definition resume (k : continuation) (its : list entry) : M unit :=
  match k with
  | AfterSelectClick =>
      fill its [];;
      do it <- get item;
      if truthy it then set_active_ it;; scroll_to it else ret tt
  | AfterTypeaheadClick value =>
      if Nat.eqb (length its) 0 then modify (set_input_value value)
      else
        fill its value;;
        open_dropdown;;
        do it <- get item;
        if truthy it then set_active_ it;; scroll_to it else ret tt
  | AfterInput value =>
      set_active_ Null;;
      fill its value;;
      do now <- get items;
      do now <- array now;
      if Nat.eqb (length now) 0 then close_dropdown else open_dropdown
  end.

(** [await this.refresh(value)].  [Select.refresh] is synchronous, so the
    continuation runs in the same task, before any other event.
    [DynamicTypeahead.refresh] calls [store_fn] (taken to be set by the
    host, as the class requires) and the handler stays suspended until
    that promise settles. *)
Definition await_refresh (value : jsstring) (k : continuation) : M unit :=
  do c <- get kind;
  match c with
  | DynamicTypeahead => modify (fun w => set_pending (pending w ++ [k]) w)
  | _ => do its <- Select_refresh value; resume k its
  end.

(** The rest of [DynamicTypeahead.refresh] once [store_fn] has answered
    with [records], followed by the rest of the handler that awaited it:
    [this.store = records; return this.store]. *)
Definition settle (k : continuation) (records : list record) : M unit :=
  do st <- make_store_nodes records;
  modify (set_store (Some st));;
  resume k st.

(** [Typeahead.on_input_input_handler(ev)], with [text] the value of the
    input when the handler runs. *)
Definition on_input_input_handler (text : jsstring) : M unit :=
  do below <- get (below_min text);
  do suppress <- get (fun w => negb (handle_min_characters w));
  if below && suppress then ret tt
  else
    let value := if below then [] else text in
    empty;;
    await_refresh value (AfterInput value).

(** [Select.on_input_click_handler(ev)] *)
Definition Select_on_input_click_handler : M unit :=
  do o <- get is_open;
  if o then reset;; close_dropdown
  else
    modify (set_is_open true);;
    open_dropdown;;
    await_refresh [] AfterSelectClick.

(** [Typeahead.on_input_click_handler(ev)] *)
Definition Typeahead_on_input_click_handler : M unit :=
  do o <- get is_open;
  if o then reset;; close_dropdown
  else
    modify (set_is_open true);;
    do value <- get input_value;
    do below <- get (below_min value);
    do suppress <- get (fun w => negb (handle_min_characters w));
    if below && suppress then ret tt
    else
      do it <- get item;
      let value := if truthy it then [] else value in
      await_refresh value (AfterTypeaheadClick value).

(** Dynamic dispatch of [this.on_input_click_handler()]. *)
Definition on_input_click_handler : M unit :=
  do c <- get kind;
  match c with
  | Select => Select_on_input_click_handler
  | _ => Typeahead_on_input_click_handler
  end.

(** Calling an [async] method from synchronous code: whatever it throws
    becomes a rejected promise that nobody observes; the caller goes on
    in the state the method reached. *)
Definition async_call (m : M unit) : M unit :=
  fun w => Ok tt (state_of (m w)).

(** [on_input_key_down_handler(ev)], on [ev.keyCode] and [ev.shiftKey]. *)
Definition on_input_key_down_handler (keyCode : nat) (shiftKey : bool) : M unit :=
  let down := Nat.eqb keyCode 40 in
  let up := Nat.eqb keyCode 38 in
  if shiftKey && up then ret tt
  else if down || up then
    do o <- get is_open;
    do cyc <- get cycle_when_closed;
    if negb o && cyc then
      do st <- get store;
      do st <- array st;
      do it <- get item;
      do nxt <- match it with
                | Obj e => if down then get_next e else get_prev e
                | _ => ret (index st 0)
                end;
      on_li_click_handler nxt
    else
      do its <- get items;
      do its <- array its;
      if Nat.eqb (length its) 0 && negb cyc then ret tt
      else
        do a <- get active;
        do a' <- match a with
                 | Obj e => if down then get_next e else get_prev e
                 | _ => ret (if down then index its 0 else index_last its)
                 end;
        set_active_ a';;
        do e <- deref a';
        do l <- call_fn_label (data e);
        modify (set_input_value l);;
        scroll_to a'
  else if Nat.eqb keyCode 13 then
    do o <- get is_open;
    if negb o then async_call on_input_click_handler
    else
      do a <- get active;
      if truthy a then on_li_click_handler a
      else
        do its <- get items;
        do its <- array its;
        if Nat.ltb 0 (length its) then on_li_click_handler (index its 0)
        else ret tt
  else if Nat.eqb keyCode 27 then on_input_blur_handler
  else ret tt.

(** ** Construction *)

(** The fields right after the constructors have run: nothing is
    assigned yet ([undefined] reads as [false] where only truthiness is
    used). *)
Definition construct (k : variant) (v : viewport) : widget :=
  Widget k None None false None false None None Undefined Undefined false
         [] false false None v ∅ 0 [] [] false.

(** [Select.initialize()] *)
Definition Select_initialize : M unit :=
  set_item_ Null;;
  set_active_ Null;;
  modify (set_is_open false);;
  modify (set_fn_label (Some default_fn_label));;
  modify (set_fn_node (Some DefaultNode));;
  modify (set_cycle_when_closed true).

(** [Typeahead.initialize()].  Its [this.matches = 2] creates a property
    that nothing reads; [min_characters] reads the private [#matches],
    which stays unset. *)
Definition Typeahead_initialize : M unit :=
  Select_initialize;;
  modify (set_items (Some []));;
  modify (set_handle_min_characters true).

(** [DynamicTypeahead.initialize()] *)
Definition DynamicTypeahead_initialize : M unit :=
  Typeahead_initialize;;
  modify (set_min_characters (Some 3));;
  modify (set_handle_min_characters false);;
  modify (set_cycle_when_closed false).

(** [connectedCallback] ends with [this.initialize()]. *)
Definition initialize : M unit :=
  do c <- get kind;
  match c with
  | Select => Select_initialize
  | Typeahead => Typeahead_initialize
  | DynamicTypeahead => DynamicTypeahead_initialize
  end.

(** ** Events *)

(** What can happen to a widget between two tasks of the event loop. *)
Inductive event : Type :=
| Click                                   (* click on the input *)
| KeyDown (keyCode : nat) (shiftKey : bool)
| FocusOut                                (* the input loses focus *)
| MouseDown (e : entry)                   (* press on the li of an entry *)
| Resize (v : viewport)                   (* the window is resized *)
| Keystroke (text : jsstring)             (* the user edits the input *)
| QuietPeriodOver                         (* the debounce timeout fires *)
| Fulfilled (k : nat) (records : list record) (* store_fn answers *)
| Rejected (k : nat)                      (* store_fn fails *)
| StoreAssigned (value : list record).    (* the host assigns store *)

(** [Core.debounce(handler, 350)]: a call replaces the pending timeout. *)
Definition debounced : M unit := modify (set_timer true).

(** The timeout of [Core.debounce]: [delegate.apply(this, args);
    timeout = null]. *)
Definition delayed : M unit :=
  do t <- get timer;
  if t then
    do text <- get input_value;
    async_call (on_input_input_handler text);;
    modify (set_timer false)
  else ret tt.

Definition take_pending (k : nat) : M (option continuation) :=
  do p <- get pending;
  modify (set_pending (delete k p));;
  ret (p !! k).

Definition dispatch (ev : event) : M unit :=
  match ev with
  | Click => async_call on_input_click_handler
  | KeyDown keyCode shiftKey => on_input_key_down_handler keyCode shiftKey
  | FocusOut => on_input_blur_handler
  | MouseDown e => on_li_click_handler (Obj e)
  | Resize v =>
      modify (set_win v);;
      do l <- get resize_listening;
      if l then close_dropdown else ret tt
  | Keystroke text =>
      do c <- get kind;
      match c with
      | Select => ret tt (* read-only input, no input listener *)
      | _ => modify (set_input_value text);; debounced
      end
  | QuietPeriodOver => delayed
  | Fulfilled k records =>
      do c <- take_pending k;
      match c with
      | Some c => async_call (settle c records)
      | None => ret tt
      end
  | Rejected k => do _ <- take_pending k; ret tt
  | StoreAssigned value => set_store_ value
  end.

(** An uncaught exception ends the task; the next event finds the state
    as the failed handler left it. *)
Definition step (w : widget) (ev : event) : widget :=
  state_of (dispatch ev w).

Definition run (w : widget) (evs : list event) : widget :=
  fold_left step evs w.

(** The states a widget can be in: initialised, then driven by events. *)
Inductive reachable (k : variant) : widget -> Prop :=
| reachable_init v :
    reachable k (state_of (initialize (construct k v)))
| reachable_step w ev :
    reachable k w -> reachable k (step w ev).

End Widget.

Arguments Ok {num A} a w.
Arguments TypeError {num A} w.

(** ** Notions used to state the properties *)

(** [null] or [undefined]. *)
Definition nullish (r : ref) : Prop := truthy r = false.

(** The links in [h] form the ring of [its], in the order of [its]. *)
Definition ring_over (h : gmap nat links) (its : list entry) : Prop :=
  forall i e, its !! i = Some e ->
    next (links_of h e) = index its ((i + 1) mod length its) /\
    prev (links_of h e) = index its ((i + length its - 1) mod length its).

(** Following [next] [n] times; a link that is not an object ends the
    walk. *)
Fixpoint follow_next (h : gmap nat links) (n : nat) (r : ref) : ref :=
  match n with
  | O => r
  | S n' =>
      match r with
      | Obj e => follow_next h n' (next (links_of h e))
      | _ => r
      end
  end.

(** Exactly one cycle: [n] steps lead back to where they started and
    no shorter positive number of steps does. *)
Definition one_cycle (h : gmap nat links) (its : list entry) : Prop :=
  forall i e, its !! i = Some e ->
    follow_next h (length its) (Obj e) = Obj e /\
    forall k, 0 < k < length its ->
      strict_eq (follow_next h k (Obj e)) (Obj e) = false.

(** The effect of one turn of the loop of [fill] on the links. *)
Definition relink (its : list entry) (h : gmap nat links) (i : nat) : gmap nat links :=
  match its !! i, its !! ((i + 1) mod length its) with
  | Some curr, Some nxt => write_prev nxt (Obj curr) (write_next curr (Obj nxt) h)
  | _, _ => h
  end.

(** The links that [fill] leaves behind. *)
Definition fill_links (its : list entry) (h : gmap nat links) : gmap nat links :=
  fold_left (relink its) (seq 0 (length its)) h.

(** The content that the node function [g] derives for record [r],
    with [f] as the label function. *)
Definition content_of (f : record -> jsstring) (g : node_fn) (r : record) : content_node :=
  match g with
  | DefaultNode =>
      match rec_node r with
      | Some n => RecordNode n
      | None => LabelDiv (f r)
      end
  | CustomNode h => h r
  end.

(** The entries that [make_store_nodes] creates for [rs] when the last
    identifier handed out was [n]. *)
Fixpoint new_entries (f : record -> jsstring) (g : node_fn) (n : nat)
    (rs : list record) : list entry :=
  match rs with
  | [] => []
  | r :: rs' => Entry (S n) r (content_of f g r) :: new_entries f g (S n) rs'
  end.

(** The links after [make_store_nodes] has created [st]. *)
Definition fresh_links (st : list entry) (h : gmap nat links) : gmap nat links :=
  fold_left (fun h e => write_prev e Null (write_next e Null h)) st h.

(** A label contains a query case-insensitively: once both are
    lower-cased, the query occurs in the label as a run of consecutive
    code units. *)
Definition contains_ci (toLowerCase : jsstring -> jsstring)
    (label_text query : jsstring) : Prop :=
  exists pre post, toLowerCase label_text = pre ++ toLowerCase query ++ post.

(** The records met when stepping [k] times through [st] as a ring,
    starting after its first entry. *)
Definition scrolled_records (st : list entry) (k : nat) : list record :=
  flat_map (fun j => match st !! (j mod length st) with
                     | Some e => [data e]
                     | None => []
                     end)
           (seq 1 k).

(** The key codes of the keyboard surface. *)
Definition ArrowUp : nat := 38.
Definition ArrowDown : nat := 40.
Definition Enter : nat := 13.
Definition Escape : nat := 27.

(** ** The class-name helpers of [Dom] *)

(** [Dom.add_css], [Dom.remove_css], [Dom.has_css], [Dom.set_css] and
    [Dom.toggle_css] (tools/dom.js), as functions from the [className]
    of the element to its new [className] (or to the answer). *)
Module Dom.

Definition space : N := 32.

(** [s.split(" ")]: the pieces between single spaces; the empty string
    gives one empty piece. *)
Fixpoint split (s : jsstring) : list jsstring :=
  match s with
  | [] => [[]]
  | c :: s' =>
      if N.eqb c space then [] :: split s'
      else match split s' with
           | piece :: pieces => (c :: piece) :: pieces
           | [] => [[c]]
           end
  end.

(** [a.join(" ")] *)
Fixpoint join (a : list jsstring) : jsstring :=
  match a with
  | [] => []
  | [piece] => piece
  | piece :: rest => piece ++ space :: join rest
  end.

(** [c1.indexOf(c) == -1] *)
Definition absent (c1 : list jsstring) (c : jsstring) : bool :=
  negb (bool_decide (c ∈ c1)).

(** [add_css(elem, css)] *)
Definition add_css (className css : jsstring) : jsstring :=
  join (fold_left (fun c1 c => if absent c1 c then c1 ++ [c] else c1)
                  (split css) (split className)).

(** [remove_css(elem, css)] *)
Definition remove_css (className css : jsstring) : jsstring :=
  join (List.filter (fun c => absent (split css) c) (split className)).

(** [has_css(elem, css)] *)
Definition has_css (className css : jsstring) : bool :=
  includes (space :: className ++ [space]) (space :: css ++ [space]).

(** [set_css(elem, css)] *)
Definition set_css (className css : jsstring) : jsstring := css.

(** [toggle_css(elem, css, enabled)] *)
Definition toggle_css (className css : jsstring) (enabled : bool) : jsstring :=
  if enabled then add_css className css else remove_css className css.

(** A class name proper: no space in it. *)
Definition spaceless (c : jsstring) : Prop := space ∉ c.

(** The pieces, each with a space before it. *)
Definition spaced (a : list jsstring) : jsstring :=
  flat_map (fun piece => space :: piece) a.

End Dom.

(** ** Sample data *)

Module Sample.

(** [toLowerCase] on text whose letters are ASCII. *)
Definition ascii_lower (s : jsstring) : jsstring :=
  (fun c => if (N.leb 65 c && N.leb c 90)%bool then (c + 32)%N else c) <$> s.

Definition v0 : viewport (num := Z) := Viewport 120%Z 10%Z 200%Z 0%Z 35%Z.
Definition v1 : viewport (num := Z) := Viewport 90%Z 10%Z 160%Z 0%Z 35%Z.

(** "abc", "ABCD", "xyz" *)
Definition abc : jsstring := [97; 98; 99]%N.
Definition ABCD : jsstring := [65; 66; 67; 68]%N.
Definition xyz : jsstring := [120; 121; 122]%N.

Definition rA : record := Record_ 1 (Some abc) None.
Definition rB : record := Record_ 2 (Some ABCD) None.
Definition rC : record := Record_ 3 (Some xyz) None.

Definition exec := run Z.add ascii_lower.

Definition new_widget (k : variant) : widget :=
  state_of (initialize (construct k v0)).

(** A plain selector over [A, B], opened by a click. *)
Definition select_AB_open : widget :=
  exec (new_widget Select) [StoreAssigned [rA; rB]; Click].

(** A plain selector with an empty store, opened by a click. *)
Definition select_empty_open : widget :=
  exec (new_widget Select) [StoreAssigned []; Click].

(** The entries that [make_store_nodes] builds first for [A, B]. *)
Definition eA : entry := Entry 1 rA (LabelDiv abc).
Definition eB : entry := Entry 2 rB (LabelDiv ABCD).

(** A typeahead over [A, B], nothing selected, opened by a click. *)
Definition typeahead_AB_open : widget :=
  exec (new_widget Typeahead) [StoreAssigned [rA; rB]; Click].

(** A plain selector over [A, B], closed, with [A] selected. *)
Definition select_AB : widget :=
  exec (new_widget Select) [StoreAssigned [rA; rB]].

(** The open typeahead over [A, B] after one ArrowDown: [A] is active. *)
Definition typeahead_AB_on_A : widget :=
  exec typeahead_AB_open [KeyDown ArrowDown false].

(** A closed typeahead over [A, B] in which the host selected index 0. *)
Definition typeahead_AB_selected : widget :=
  state_of (select_index 0 (exec (new_widget Typeahead) [StoreAssigned [rA; rB]])).

(** A closed typeahead over [A, B], nothing selected, with "xyz" typed. *)
Definition typeahead_AB_xyz : widget :=
  exec (new_widget Typeahead) [StoreAssigned [rA; rB]; Keystroke xyz].

(** The class name "a b" and the class "b". *)
Definition class_a_b : jsstring := [97; 32; 98]%N.
Definition class_b : jsstring := [98]%N.
Definition class_c : jsstring := [99]%N.

(** "abcd" *)
Definition abcd : jsstring := [97; 98; 99; 100]%N.

(** A dynamic typeahead in which "abc" and then "abcd" were typed, each
    followed by a quiet period, and no answer has arrived yet. *)
Definition dynamic_two_asked : widget :=
  exec (new_widget DynamicTypeahead)
    [Keystroke abc; QuietPeriodOver; Keystroke abcd; QuietPeriodOver].

(** A dynamic typeahead in which "abc" was typed, the answer [A, B]
    arrived, and ArrowDown was pressed. *)
Definition dynamic_AB_arrow : widget :=
  exec (new_widget DynamicTypeahead)
    [Keystroke abc; QuietPeriodOver; Fulfilled 0 [rA; rB];
     KeyDown ArrowDown false].

End Sample.

(** The state a commit of [e] leaves, the notification apart. *)
Definition closed_on {num : Type} (f : record -> jsstring) (e : entry)
    (w : widget (num := num)) : widget :=
  set_resize_listening false (set_attached false
    (set_input_value (f (data e)) (set_items (Some [])
    (set_is_open false (set_active Null (set_item (Obj e) w)))))).

(** The records of the visible set. *)
Definition visible_records {num : Type} (w : widget (num := num)) : option (list record) :=
  match items w with
  | Some its => Some (data <$> its)
  | None => None
  end.

(** The state an arrow key leaves when it moves the highlight to [e]. *)
Definition highlighted {num : Type} (f : record -> jsstring) (e : entry)
    (w : widget (num := num)) : widget :=
  set_input_value (f (data e)) (set_active (Obj e) w).

(** A property kept by a computation, whether it returns or throws. *)
Definition preserves {num : Type} {A} (P : widget (num := num) -> Prop)
    (m : M A) : Prop :=
  forall w, P w -> P (state_of (m w)).

(** [is_open], [item] and [emitted] together. *)
Definition commitment {num : Type} (o : bool) (it : ref) (em : list record)
    (w : widget (num := num)) : Prop :=
  is_open w = o /\ item w = it /\ emitted w = em.

(** The overlay: attached or not, listening to resizes or not, and
    where it was last placed. *)
Definition overlay {num : Type} (a l : bool) (p : option (style (num := num)))
    (w : widget (num := num)) : Prop :=
  attached w = a /\ resize_listening w = l /\ placement w = p.

(** [m], started where [P] holds, stops where [Q] holds, whether it
    returns or throws. *)
Definition leads {num : Type} {A} (P Q : widget (num := num) -> Prop)
    (m : M A) : Prop :=
  forall w, P w -> Q (state_of (m w)).

(** The selection and the notifications sent so far. *)
Definition selection_is {num : Type} (it : ref) (em : list record)
    (w : widget (num := num)) : Prop :=
  item w = it /\ emitted w = em.

Definition emitted_is {num : Type} (em : list record)
    (w : widget (num := num)) : Prop :=
  emitted w = em.

(** The events that can commit a selection in state [w]: a press on an
    entry, Enter while open, an arrow key while closed with cycling
    enabled (Shift+ArrowUp is not an arrow key), and the host assigning
    a store. *)
Definition may_commit {num : Type} (w : widget (num := num))
    (ev : event (num := num)) : bool :=
  match ev with
  | MouseDown _ => true
  | StoreAssigned _ => true
  | KeyDown keyCode shiftKey =>
      if shiftKey && Nat.eqb keyCode 38 then false
      else if Nat.eqb keyCode 40 || Nat.eqb keyCode 38
      then negb (is_open w) && cycle_when_closed w
      else if Nat.eqb keyCode 13 then is_open w
      else false
  | _ => false
  end.

(** A widget of class [k] with synchronous refresh: cycling enabled, no
    suspended handler. *)
Definition synchronous {num : Type} (k : variant) (w : widget (num := num)) : Prop :=
  kind w = k /\ k <> DynamicTypeahead /\ cycle_when_closed w = true /\
  pending w = [].

(** [is_open == false] implies [active == null]. *)
Definition closed_means_inactive {num : Type} (w : widget (num := num)) : Prop :=
  is_open w = false -> nullish (active w).

Definition sync_inactive {num : Type} (k : variant) (w : widget (num := num)) : Prop :=
  synchronous k w /\ nullish (active w).

Definition sync_open {num : Type} (k : variant) (w : widget (num := num)) : Prop :=
  synchronous k w /\ is_open w = true.

Definition sync_safe {num : Type} (k : variant) (w : widget (num := num)) : Prop :=
  synchronous k w /\ closed_means_inactive w.

(** * Properties *)

(** Normal forms of states: setters and projections are evaluated
    innermost first. *)
Ltac wsimpl :=
  cbv beta iota delta
    [set_fn_label set_fn_node set_cycle_when_closed set_min_characters
     set_handle_min_characters set_store set_items set_item set_active
     set_is_open set_input_value set_attached set_resize_listening
     set_placement set_win set_heap set_auto_id set_emitted set_pending
     set_timer kind fn_label fn_node cycle_when_closed min_characters
     handle_min_characters store items item active is_open input_value
     attached resize_listening placement win heap auto_id emitted pending
     timer bind ret get modify throw state_of].

Create HintDb frame.

#[global] Hint Unfold commitment overlay selection_is emitted_is synchronous
  closed_means_inactive sync_inactive sync_open sync_safe nullish : frame.

Section Properties.

Context {num : Type}.
Variable add : num -> num -> num.
Variable toLowerCase : jsstring -> jsstring.
Implicit Types w : widget (num := num).

(** *** The monad *)

Lemma bind_ok {A B} (m : M A) (k : A -> M B) w a w' :
  m w = Ok a w' -> bind m k w = k a w'.
Proof. intros H. unfold bind. by rewrite H. Qed.

Lemma preserves_ret {A} P (a : A) : preserves (num := num) P (ret a).
Proof. by intros w H. Qed.

Lemma preserves_throw {A} P : preserves P (@throw num A).
Proof. by intros w H. Qed.

Lemma preserves_get {A} P (f : widget -> A) : preserves (num := num) P (get f).
Proof. by intros w H. Qed.

Lemma preserves_modify P (f : widget -> widget) :
  (forall w, P w -> P (f w)) -> preserves (num := num) P (modify f).
Proof. intros Hf w H. by apply Hf. Qed.

Lemma preserves_bind {A B} P (m : M A) (k : A -> M B) :
  preserves (num := num) P m -> (forall a, preserves P (k a)) ->
  preserves P (bind m k).
Proof.
  intros Hm Hk w H. unfold bind. specialize (Hm w H).
  destruct (m w) as [a w1|w1]; cbn in *; [by apply Hk | done].
Qed.

Lemma preserves_async P (m : M unit) :
  preserves (num := num) P m -> preserves P (async_call m).
Proof. intros Hm w H. by apply Hm. Qed.

Lemma preserves_for_each P body indices :
  (forall i, preserves (num := num) P (body i)) ->
  preserves P (for_each body indices).
Proof.
  intros Hb. induction indices as [|i rest IH]; cbn.
  - apply preserves_ret.
  - apply preserves_bind; auto.
Qed.

Ltac preserve_step :=
  first
    [ simple apply preserves_ret | simple apply preserves_throw
    | simple apply preserves_get
    | simple apply preserves_async
    | simple apply preserves_for_each; intros ?
    | simple apply preserves_bind; [| intros ?]
    | simple apply preserves_modify; intros ? ?;
      autounfold with frame in *; cbn; tauto
    | match goal with
      | |- preserves _ (match ?x with _ => _ end) => destruct x
      | |- preserves _ (if ?x then _ else _) => destruct x
      end
    | solve [auto with frame nocore] ].

Ltac preserve := repeat preserve_step.

Lemma filter_store_preserves P value st :
  preserves (num := num) P (filter_store toLowerCase value st).
Proof.
  induction st as [|e st IH]; cbn; [apply preserves_ret|].
  unfold call_fn_label. preserve.
Qed.

#[local] Hint Resolve filter_store_preserves : frame.

Lemma fill_commitment o it em its mask :
  preserves (num := num) (commitment o it em) (fill its mask).
Proof.
  unfold fill, fill_body, decorate_list_content, put_next, put_prev, get_next,
    deref, call_fn_label.
  preserve.
Qed.

Lemma open_dropdown_commitment o it em :
  preserves (commitment o it em) (open_dropdown add).
Proof. unfold open_dropdown, update_dropdown_position. preserve. Qed.

#[local] Hint Resolve fill_commitment open_dropdown_commitment : frame.

Lemma resume_commitment o it em k its :
  preserves (commitment o it em) (resume add k its).
Proof.
  unfold resume, set_active_, scroll_to, deref, close_dropdown, array.
  preserve.
Qed.

#[local] Hint Resolve resume_commitment : frame.

Lemma await_refresh_commitment o it em value k :
  preserves (commitment o it em) (await_refresh add toLowerCase value k).
Proof. unfold await_refresh, Select_refresh, array. preserve. Qed.

#[local] Hint Resolve await_refresh_commitment : frame.

(** *** Labels, reset and commit *)

Lemma label_ok w f :
  fn_label w = Some f ->
  label w = Ok (match item w with Obj e => f (data e) | _ => [] end) w.
Proof.
  intros Hf. unfold label, bind, get, call_fn_label, bind, get, ret.
  destruct (item w); try done. by rewrite Hf.
Qed.

Lemma reset_ok w f :
  fn_label w = Some f ->
  reset w =
    Ok tt (set_input_value (match item w with Obj e => f (data e) | _ => [] end)
          (set_items (Some []) (set_is_open false (set_active Null w)))).
Proof.
  intros Hf. unfold reset, set_active_, empty, bind, modify.
  erewrite label_ok by exact Hf. reflexivity.
Qed.

Lemma on_li_click_handler_ok w f e :
  fn_label w = Some f ->
  on_li_click_handler (Obj e) w =
    Ok tt (if strict_eq (Obj e) (item w) then closed_on f e w
           else set_emitted (emitted w ++ [data e]) (closed_on f e w)).
Proof.
  intros Hf. unfold on_li_click_handler, set_item_, closed_on.
  unfold bind at 1. unfold get at 1. unfold bind at 1. unfold modify at 1.
  unfold bind at 1. erewrite reset_ok by exact Hf.
  unfold close_dropdown, emit_select_change, deref.
  wsimpl. destruct (strict_eq _ _); reflexivity.
Qed.

Lemma enter_commits_active w e shiftKey :
  is_open w = true -> active w = Obj e ->
  on_input_key_down_handler add toLowerCase Enter shiftKey w =
    on_li_click_handler (Obj e) w.
Proof.
  intros Ho Ha. unfold on_input_key_down_handler, Enter.
  replace (shiftKey && (13 =? 38)) with false by (by destruct shiftKey).
  cbn [Nat.eqb orb]. unfold bind at 1, get at 1. rewrite Ho. cbn [negb].
  unfold bind at 1, get at 1. rewrite Ha. reflexivity.
Qed.

Lemma enter_commits_first w e its shiftKey :
  is_open w = true -> nullish (active w) -> items w = Some (e :: its) ->
  on_input_key_down_handler add toLowerCase Enter shiftKey w =
    on_li_click_handler (Obj e) w.
Proof.
  intros Ho Ha Hi. unfold on_input_key_down_handler, Enter.
  replace (shiftKey && (13 =? 38)) with false by (by destruct shiftKey).
  cbn [Nat.eqb orb]. unfold bind at 1, get at 1. rewrite Ho. cbn [negb].
  unfold bind at 1, get at 1. unfold nullish in Ha. rewrite Ha.
  unfold bind at 1, get at 1. rewrite Hi. reflexivity.
Qed.

(** *** What [fill] and the refresh leave alone *)

Lemma fill_preserves P its mask :
  (forall w v, P w -> P (set_items v w)) ->
  (forall w h, P w -> P (set_heap h w)) ->
  preserves (num := num) P (fill its mask).
Proof.
  intros Hi Hh.
  unfold fill, fill_body, decorate_list_content, put_next, put_prev, get_next,
    deref, call_fn_label.
  repeat first [ preserve_step | simple apply preserves_modify; intros ? ?; auto ].
Qed.

Lemma fill_overlay a l p its mask :
  preserves (num := num) (overlay a l p) (fill its mask).
Proof. apply fill_preserves; intros; autounfold with frame in *; cbn; tauto. Qed.

#[local] Hint Resolve fill_overlay : frame.

Lemma select_click_refresh_overlay a l p :
  preserves (overlay a l p) (await_refresh add toLowerCase [] AfterSelectClick).
Proof.
  unfold await_refresh, Select_refresh, array.
  cbv beta iota delta [resume]. unfold set_active_, scroll_to, deref.
  preserve.
Qed.

(** Opening by click or Enter: what the handler does up to its [await]
    and what the continuation keeps. *)
Lemma click_when_closed w :
  is_open w = false ->
  commitment true (item w) (emitted w) (state_of (on_input_click_handler add toLowerCase w)).
Proof.
  intros Ho. unfold on_input_click_handler.
  unfold bind at 1, get at 1.
  destruct (kind w);
    [ unfold Select_on_input_click_handler
    | unfold Typeahead_on_input_click_handler
    | unfold Typeahead_on_input_click_handler ];
    unfold bind at 1, get at 1; rewrite Ho;
    unfold bind at 1, modify at 1;
    match goal with
    | |- commitment _ _ _ (state_of (?m ?s)) =>
        assert (preserves (commitment true (item w) (emitted w)) m) as Hp
          by preserve;
        apply Hp
    end; done.
Qed.

Lemma select_click_when_closed w :
  kind w = Select -> is_open w = false ->
  overlay true true
    (Some (Style (add (rect_bottom (win w)) (scrollY (win w)))
                 (add (rect_left (win w)) (scrollX (win w)))
                 (rect_width (win w))))
    (state_of (on_input_click_handler add toLowerCase w)).
Proof.
  intros Hk Ho. unfold on_input_click_handler.
  unfold bind at 1, get at 1. rewrite Hk.
  unfold Select_on_input_click_handler.
  unfold bind at 1, get at 1. rewrite Ho.
  unfold bind at 1, modify at 1.
  unfold bind at 1, open_dropdown, update_dropdown_position.
  wsimpl.
  match goal with
  | |- overlay ?a ?l ?p (match ?m ?s with _ => _ end) =>
      change (overlay a l p (state_of (m s)));
      apply (select_click_refresh_overlay a l p)
  end.
  done.
Qed.

(** *** Commit, gate, overlay, construction and Enter *)

(** C4: a commit of entry [e] (a press on its [li], or Enter on it while
    open) returns normally and selects [e]; when [e] is the very entry
    that was selected before, no select-change is emitted; when it is
    another one, exactly one is emitted and it carries the record of
    [e]. *)
Theorem commit_notifies_once_iff_changed w f e :
  fn_label w = Some f ->
  exists w',
    on_li_click_handler (Obj e) w = Ok tt w' /\
    item w' = Obj e /\
    (strict_eq (Obj e) (item w) = true -> emitted w' = emitted w) /\
    (strict_eq (Obj e) (item w) = false ->
       emitted w' = emitted w ++ [data e]) /\
    dispatch add toLowerCase (MouseDown e) w = on_li_click_handler (Obj e) w /\
    (forall shiftKey,
       is_open w = true ->
       active w = Obj e \/
         (nullish (active w) /\ exists its, items w = Some (e :: its)) ->
       on_input_key_down_handler add toLowerCase Enter shiftKey w =
         on_li_click_handler (Obj e) w).
Proof.
  intros Hf. rewrite (on_li_click_handler_ok w f e Hf).
  eexists. split; [reflexivity|].
  split; [by destruct (strict_eq _ _)|].
  split; [by intros ->|]. split; [by intros ->|].
  split; [exact (on_li_click_handler_ok w f e Hf)|].
  intros shiftKey Ho [Ha|[Ha [its Hi]]].
  - rewrite (enter_commits_active w e shiftKey Ho Ha).
    by apply on_li_click_handler_ok.
  - rewrite (enter_commits_first w e its shiftKey Ho Ha Hi).
    by apply on_li_click_handler_ok.
Qed.

(** C6: with a minimum input length and the suppress policy
    ([handle_min_characters] false), the input handler run on a text
    shorter than the minimum returns at once and changes nothing; a
    keystroke followed by the end of the quiet period therefore leaves
    the visible set as it was. *)
Theorem short_input_is_suppressed w text m :
  min_characters w = Some m ->
  handle_min_characters w = false ->
  length text < m ->
  on_input_input_handler add toLowerCase text w = Ok tt w /\
  (kind w <> Select ->
   items (run add toLowerCase w [Keystroke text; QuietPeriodOver]) = items w).
Proof.
  intros Hm Hh Hlt.
  assert (Hgate : forall w0 : widget (num := num),
             min_characters w0 = Some m -> handle_min_characters w0 = false ->
             on_input_input_handler add toLowerCase text w0 = Ok tt w0).
  { intros w0 Hm0 Hh0. unfold on_input_input_handler.
    unfold bind at 1, get at 1. unfold bind at 1, get at 1.
    unfold below_min. rewrite Hm0, Hh0.
    apply Nat.ltb_lt in Hlt. rewrite Hlt. reflexivity. }
  split; [by apply Hgate|].
  intros Hk.
  assert (Hs : step add toLowerCase w (Keystroke text) =
               set_timer true (set_input_value text w)).
  { unfold step, dispatch, bind at 1, get at 1.
    by destruct (kind w). }
  unfold run, fold_left. rewrite Hs.
  unfold step, dispatch, delayed, async_call.
  unfold bind at 1, get at 1. cbn [timer set_timer].
  unfold bind at 1, get at 1. unfold bind at 1.
  cbn [input_value set_timer set_input_value].
  rewrite Hgate by done. reflexivity.
Qed.

(** C7, as the code has it: opening with [is_open] set attaches the
    overlay, places it at top = anchor bottom + scrollY, left = anchor
    left + scrollX, width = anchor width, and registers the resize
    listener; a resize while the listener is registered closes the
    overlay (detached, listener removed) and leaves the placement as it
    was, without recomputing it; closing detaches and removes the
    listener.  A click on a closed plain selector opens it in this
    way. *)
Theorem overlay_placed_on_open_closed_on_resize w v :
  is_open w = true ->
  let opened := state_of (open_dropdown add w) in
  let placed :=
    Some (Style (add (rect_bottom (win w)) (scrollY (win w)))
                (add (rect_left (win w)) (scrollX (win w)))
                (rect_width (win w))) in
  open_dropdown add w = Ok tt opened /\
  overlay true true placed opened /\
  overlay false false placed (step add toLowerCase opened (Resize v)) /\
  win (step add toLowerCase opened (Resize v)) = v /\
  overlay false false placed (state_of (close_dropdown opened)) /\
  (forall w0 : widget (num := num),
     kind w0 = Select -> is_open w0 = false -> win w0 = win w ->
     overlay true true placed (step add toLowerCase w0 Click)).
Proof.
  intros Ho opened placed. subst opened placed.
  assert (Hclick : forall w0 : widget (num := num),
             kind w0 = Select -> is_open w0 = false -> win w0 = win w ->
             overlay true true
               (Some (Style (add (rect_bottom (win w)) (scrollY (win w)))
                            (add (rect_left (win w)) (scrollX (win w)))
                            (rect_width (win w))))
               (step add toLowerCase w0 Click)).
  { intros w0 Hk Hc Hw. rewrite <- Hw.
    apply (select_click_when_closed w0 Hk Hc). }
  destruct w. cbn in Ho. subst.
  split; [reflexivity|]. split; [by repeat split|].
  split; [by repeat split|]. split; [reflexivity|].
  split; [by repeat split|]. exact Hclick.
Qed.

(** C9, as the code has it: initialising a widget that was given no
    label function and no content-node function does not fail; it
    installs the defaults (the record's [label] or the empty string,
    the record's [node] or a [div] holding the label).  When the label
    function is missing afterwards, the failure comes at first use:
    filtering a non-empty store throws. *)
Theorem initialize_installs_defaults (k : variant) (v : viewport (num := num)) :
  fn_label (construct k v) = None /\
  fn_node (construct k v) = None /\
  (exists w, initialize (construct k v) = Ok tt w /\
     fn_label w = Some default_fn_label /\ fn_node w = Some DefaultNode) /\
  (forall w e st value,
     Select_refresh toLowerCase value
       (set_store (Some (e :: st)) (set_fn_label None w)) =
     TypeError (set_store (Some (e :: st)) (set_fn_label None w))).
Proof.
  split; [reflexivity|]. split; [reflexivity|]. split.
  - destruct k; eexists; (split; [reflexivity|]); split; reflexivity.
  - intros w e st value. reflexivity.
Qed.

(** C10: Enter on a closed widget opens it ([is_open] becomes true; a
    plain selector also shows its overlay) and commits nothing (the
    selection is unchanged and nothing is emitted); Enter on an open
    widget with no active entry and a non-empty visible set commits the
    first visible entry and closes. *)
Theorem enter_opens_or_commits_first w f shiftKey :
  fn_label w = Some f ->
  (is_open w = false ->
     let w' := state_of (on_input_key_down_handler add toLowerCase Enter shiftKey w) in
     is_open w' = true /\ item w' = item w /\ emitted w' = emitted w /\
     (kind w = Select -> attached w' = true)) /\
  (forall e its,
     is_open w = true -> nullish (active w) -> items w = Some (e :: its) ->
     exists w',
       on_input_key_down_handler add toLowerCase Enter shiftKey w = Ok tt w' /\
       item w' = Obj e /\ is_open w' = false /\ active w' = Null /\
       emitted w' =
         (if strict_eq (Obj e) (item w) then emitted w
          else emitted w ++ [data e])).
Proof.
  intros Hf. split.
  - intros Ho w'. subst w'.
    assert (Hk : on_input_key_down_handler add toLowerCase Enter shiftKey w =
                 async_call (on_input_click_handler add toLowerCase) w).
    { unfold on_input_key_down_handler, Enter.
      replace (shiftKey && (13 =? 38)) with false by (by destruct shiftKey).
      cbn [Nat.eqb orb]. unfold bind at 1, get at 1. by rewrite Ho. }
    rewrite Hk. unfold async_call. cbn [state_of].
    destruct (click_when_closed w Ho) as (H1 & H2 & H3).
    repeat split; try done.
    intros Hs. by destruct (select_click_when_closed w Hs Ho) as (H4 & _).
  - intros e its Ho Ha Hi.
    rewrite (enter_commits_first w e its shiftKey Ho Ha Hi).
    rewrite (on_li_click_handler_ok w f e Hf).
    eexists. split; [reflexivity|].
    destruct (strict_eq _ _); repeat split.
Qed.

(** *** Local filtering *)

Lemma starts_with_spec s sub :
  starts_with s sub = true <-> exists post, s = sub ++ post.
Proof.
  revert s. induction sub as [|c sub IH]; intros s; cbn.
  - split; [intros _; by exists s | done].
  - destruct s as [|d s]; cbn.
    + split; [done | intros [post H]; done].
    + destruct (N.eqb_spec c d) as [->|Hne].
      * rewrite IH. split; intros [post H]; exists post; congruence.
      * split; [done | intros [post H]; congruence].
Qed.

Lemma includes_spec s sub :
  includes s sub = true <-> exists pre post, s = pre ++ sub ++ post.
Proof.
  induction s as [|d s IH].
  - cbn. destruct (starts_with [] sub) eqn:E.
    + apply starts_with_spec in E as [post E].
      split; [intros _; by exists [], post | done].
    + split; [done|]. intros (pre & post & H).
      destruct pre; [|done]. cbn in H.
      assert (starts_with [] sub = true) by (apply starts_with_spec; eauto).
      congruence.
  - cbn [includes]. destruct (starts_with (d :: s) sub) eqn:E.
    + apply starts_with_spec in E as [post E].
      split; [intros _; by exists [], post | done].
    + rewrite IH. split.
      * intros (pre & post & ->). by exists (d :: pre), post.
      * intros (pre & post & H). destruct pre as [|d' pre].
        -- assert (starts_with (d :: s) sub = true)
             by (apply starts_with_spec; eauto).
           congruence.
        -- exists pre, post. cbn in H. congruence.
Qed.

Lemma filter_store_ok w f value st :
  fn_label w = Some f ->
  filter_store toLowerCase value st w =
    Ok (List.filter
          (fun e => includes (toLowerCase (f (data e))) (toLowerCase value)) st)
       w.
Proof.
  intros Hf. induction st as [|e st IH]; [reflexivity|].
  cbn [filter_store List.filter].
  unfold bind at 1, call_fn_label, bind at 1, get at 1. rewrite Hf.
  unfold ret at 1. unfold bind at 1. rewrite IH. reflexivity.
Qed.

Lemma Select_refresh_ok w f st value :
  store w = Some st -> fn_label w = Some f ->
  Select_refresh toLowerCase value w =
    Ok (List.filter
          (fun e => includes (toLowerCase (f (data e))) (toLowerCase value)) st)
       w.
Proof.
  intros Hs Hf. unfold Select_refresh, bind at 1, get at 1. rewrite Hs.
  unfold bind at 1, array, ret at 1. by apply filter_store_ok.
Qed.

(** C3: on a widget with a store and a label function, the local
    refresh returns normally, changes nothing, and yields exactly the
    entries of the store whose label contains the query once both are
    lower-cased, in the order of the store; the empty query yields the
    whole store. *)
Theorem local_refresh_is_the_case_insensitive_filter w f st value :
  store w = Some st ->
  fn_label w = Some f ->
  toLowerCase [] = [] ->
  exists res,
    Select_refresh toLowerCase value w = Ok res w /\
    sublist res st /\
    (forall e, e ∈ res <-> e ∈ st /\ contains_ci toLowerCase (f (data e)) value) /\
    (forall dec : forall e, Decision (contains_ci toLowerCase (f (data e)) value),
       res = @filter _ _ _ (fun e => contains_ci toLowerCase (f (data e)) value) dec st) /\
    Select_refresh toLowerCase [] w = Ok st w.
Proof.
  intros Hs Hf Hempty.
  rewrite !(Select_refresh_ok w f st) by done.
  eexists. split; [reflexivity|].
  assert (Hdec : forall dec : forall e, Decision (contains_ci toLowerCase (f (data e)) value),
            List.filter
              (fun e => includes (toLowerCase (f (data e))) (toLowerCase value)) st =
            @filter _ _ _ (fun e => contains_ci toLowerCase (f (data e)) value) dec st).
  { intros dec. clear Hs. induction st as [|e st IH]; [reflexivity|].
    cbn [List.filter]. rewrite filter_cons. rewrite IH.
    destruct (dec e) as [Hc|Hc];
      destruct (includes _ _) eqn:E; try reflexivity.
    - exfalso. apply not_true_iff_false in E. apply E.
      apply includes_spec. exact Hc.
    - exfalso. apply Hc. apply includes_spec. exact E. }
  split; [|split; [|split]].
  - clear. induction st as [|e st IH]; cbn; [constructor|].
    destruct (includes _ _); [by apply sublist_skip | by apply sublist_cons].
  - intros e. rewrite list_elem_of_In, filter_In, <- list_elem_of_In.
    unfold contains_ci. by rewrite includes_spec.
  - exact Hdec.
  - f_equal. rewrite Hempty. clear.
    induction st as [|e st IH]; [reflexivity|].
    cbn [List.filter]. rewrite IH.
    by destruct (toLowerCase (f (data e))).
Qed.

(** *** Links *)

Lemma next_write_next e v (h : gmap nat links) e' :
  next (links_of (write_next e v h) e') =
    if decide (eid e = eid e') then v else next (links_of h e').
Proof.
  unfold links_of, write_next.
  destruct (decide (eid e = eid e')) as [Heq|Hne].
  - rewrite <- Heq. by rewrite lookup_insert_eq.
  - by rewrite lookup_insert_ne.
Qed.

Lemma prev_write_next e v (h : gmap nat links) e' :
  prev (links_of (write_next e v h) e') = prev (links_of h e').
Proof.
  unfold links_of, write_next.
  destruct (decide (eid e = eid e')) as [Heq|Hne].
  - rewrite <- Heq. by rewrite lookup_insert_eq.
  - by rewrite lookup_insert_ne.
Qed.

Lemma next_write_prev e v (h : gmap nat links) e' :
  next (links_of (write_prev e v h) e') = next (links_of h e').
Proof.
  unfold links_of, write_prev.
  destruct (decide (eid e = eid e')) as [Heq|Hne].
  - rewrite <- Heq. by rewrite lookup_insert_eq.
  - by rewrite lookup_insert_ne.
Qed.

Lemma prev_write_prev e v (h : gmap nat links) e' :
  prev (links_of (write_prev e v h) e') =
    if decide (eid e = eid e') then v else prev (links_of h e').
Proof.
  unfold links_of, write_prev.
  destruct (decide (eid e = eid e')) as [Heq|Hne].
  - rewrite <- Heq. by rewrite lookup_insert_eq.
  - by rewrite lookup_insert_ne.
Qed.

Lemma index_lookup (its : list entry) i e : its !! i = Some e -> index its i = Obj e.
Proof. intros H. unfold index. by rewrite H. Qed.

Lemma index_lt (its : list entry) i : i < length its -> exists e, its !! i = Some e.
Proof. intros H. by apply lookup_lt_is_Some_2. Qed.

Lemma succ_mod i n : i < n -> (i + 1) mod n = if decide (i + 1 = n) then 0 else i + 1.
Proof.
  intros H. destruct (decide (i + 1 = n)) as [<-|Hne].
  - apply Nat.Div0.mod_same.
  - apply Nat.mod_small. lia.
Qed.

Lemma succ_mod_lt i n : i < n -> (i + 1) mod n < n.
Proof. intros H. apply Nat.mod_upper_bound. lia. Qed.

Lemma eid_inj (its : list entry) i j a b :
  NoDup (eid <$> its) -> its !! i = Some a -> its !! j = Some b ->
  eid a = eid b -> i = j.
Proof.
  intros Hnd Ha Hb Heq.
  apply (NoDup_lookup (eid <$> its) i j (eid a)); [done| |].
  - by rewrite list_lookup_fmap, Ha.
  - by rewrite list_lookup_fmap, Hb, Heq.
Qed.

(** *** The loop of [fill] *)

Lemma fill_body_ok w f its mask i :
  fn_label w = Some f -> i < length its ->
  fill_body its mask i w = Ok tt (set_heap (relink its (heap w) i) w).
Proof.
  intros Hf Hi.
  destruct (index_lt its i Hi) as [curr Hc].
  destruct (index_lt its _ (succ_mod_lt i _ Hi)) as [nxt Hn].
  unfold fill_body, relink. rewrite (index_lookup _ _ _ Hc), (index_lookup _ _ _ Hn).
  rewrite Hc, Hn.
  unfold deref, decorate_list_content, call_fn_label, put_next, get_next, put_prev.
  wsimpl. destruct w. cbn in Hf. subst. cbn [heap].
  rewrite next_write_next. rewrite decide_True by done. reflexivity.
Qed.

Lemma for_each_fill_body_ok w f its mask indices :
  fn_label w = Some f -> Forall (fun i => i < length its) indices ->
  for_each (fill_body its mask) indices w =
    Ok tt (set_heap (fold_left (relink its) indices (heap w)) w).
Proof.
  intros Hf Hall. revert w Hf.
  induction Hall as [|i rest Hi Hrest IH]; intros w Hf.
  - cbn. unfold ret. by destruct w.
  - cbn [for_each fold_left]. unfold bind.
    rewrite (fill_body_ok w f its mask i Hf Hi).
    rewrite IH by exact Hf. by destruct w.
Qed.

Lemma fill_ok w f its mask :
  fn_label w = Some f ->
  fill its mask w =
    Ok tt (set_heap (fill_links its (heap w)) (set_items (Some its) w)).
Proof.
  intros Hf. unfold fill, fill_links, bind at 1, modify at 1.
  rewrite (for_each_fill_body_ok _ f) by
    (try exact Hf; apply Forall_forall; intros i Hi; apply elem_of_seq in Hi; lia).
  reflexivity.
Qed.

(** *** The ring that [fill] builds *)

Lemma relink_prefix (its : list entry) (h : gmap nat links) k :
  NoDup (eid <$> its) -> k <= length its ->
  let h' := fold_left (relink its) (seq 0 k) h in
  (forall j e, j < k -> its !! j = Some e ->
     next (links_of h' e) = index its ((j + 1) mod length its)) /\
  (forall j e, j < k -> its !! ((j + 1) mod length its) = Some e ->
     prev (links_of h' e) = index its j).
Proof.
  intros Hnd. induction k as [|k IH]; intros Hk h'.
  - split; intros; lia.
  - subst h'. rewrite seq_S, fold_left_app. cbn [fold_left Nat.add].
    destruct IH as [IHn IHp]; [lia|].
    set (h0 := fold_left (relink its) (seq 0 k) h) in *.
    assert (Hlt : k < length its) by lia.
    destruct (index_lt its k Hlt) as [curr Hc].
    destruct (index_lt its _ (succ_mod_lt k _ Hlt)) as [nxt Hn].
    unfold relink. rewrite Hc, Hn. split.
    + intros j e Hj He. rewrite next_write_prev, next_write_next.
      destruct (decide (eid curr = eid e)) as [Heq|Hne].
      * assert (k = j) as <- by eauto using eid_inj.
        symmetry. by apply index_lookup.
      * apply IHn; [|done]. assert (j <> k) by congruence. lia.
    + intros j e Hj He. rewrite prev_write_prev, prev_write_next.
      destruct (decide (eid nxt = eid e)) as [Heq|Hne].
      * assert (Hjk : (k + 1) mod length its = (j + 1) mod length its)
          by eauto using eid_inj.
        rewrite !succ_mod in Hjk by lia.
        assert (j = k) as ->
          by (repeat case_decide; lia).
        symmetry. by apply index_lookup.
      * apply IHp; [|done]. assert (j <> k) by congruence. lia.
Qed.

Lemma fill_links_ring (its : list entry) (h : gmap nat links) :
  NoDup (eid <$> its) -> ring_over (fill_links its h) its.
Proof.
  intros Hnd i e He.
  assert (Hi : i < length its) by (by eapply lookup_lt_Some).
  destruct (relink_prefix its h (length its) Hnd (Nat.le_refl _)) as [Hn Hp].
  split; [by apply Hn|].
  assert (Hj : (i + length its - 1) mod length its < length its)
    by (apply Nat.mod_upper_bound; lia).
  apply Hp; [done|].
  rewrite succ_mod by done.
  destruct (decide (i = 0)) as [->|Hne].
  - rewrite Nat.add_0_l in *. rewrite Nat.mod_small in * by lia.
    rewrite decide_True by lia. done.
  - replace (i + length its - 1) with (i - 1 + 1 * length its) in * by lia.
    rewrite Nat.Div0.mod_add in *. rewrite Nat.mod_small in * by lia.
    rewrite decide_False by lia. by replace (i - 1 + 1) with i by lia.
Qed.

Lemma follow_next_ring (h : gmap nat links) (its : list entry) k i e :
  ring_over h its -> its !! i = Some e ->
  follow_next h k (Obj e) = index its ((i + k) mod length its).
Proof.
  intros Hring. revert i e. induction k as [|k IH]; intros i e He.
  - assert (i < length its) by (by eapply lookup_lt_Some).
    rewrite Nat.add_0_r, Nat.mod_small by done. symmetry. by apply index_lookup.
  - assert (Hi : i < length its) by (by eapply lookup_lt_Some).
    cbn [follow_next]. destruct (Hring i e He) as [Hn _]. rewrite Hn.
    destruct (index_lt its _ (succ_mod_lt i _ Hi)) as [e' He'].
    rewrite (index_lookup _ _ _ He'). rewrite (IH _ _ He').
    f_equal. rewrite Nat.Div0.add_mod_idemp_l. f_equal. lia.
Qed.

Lemma ring_one_cycle (h : gmap nat links) (its : list entry) :
  NoDup (eid <$> its) -> ring_over h its -> one_cycle h its.
Proof.
  intros Hnd Hring i e He.
  assert (Hi : i < length its) by (by eapply lookup_lt_Some).
  split.
  - rewrite (follow_next_ring h its _ i e Hring He).
    replace (i + length its) with (i + 1 * length its) by lia.
    rewrite Nat.Div0.mod_add, Nat.mod_small by done. by apply index_lookup.
  - intros k Hk. rewrite (follow_next_ring h its _ i e Hring He).
    assert (Hj : (i + k) mod length its < length its)
      by (apply Nat.mod_upper_bound; lia).
    destruct (index_lt its _ Hj) as [e' He'].
    rewrite (index_lookup _ _ _ He'). cbn.
    apply Nat.eqb_neq. intros Heq.
    assert (Hij : (i + k) mod length its = i) by eauto using eid_inj.
    destruct (decide (i + k < length its)).
    + rewrite Nat.mod_small in Hij by done. lia.
    + replace (i + k) with (i + k - length its + 1 * length its) in Hij by lia.
      rewrite Nat.Div0.mod_add, Nat.mod_small in Hij by lia. lia.
Qed.

(** *** Arrow keys on an open list *)

Lemma arrow_in_list w f its keyCode e' :
  keyCode = ArrowDown \/ keyCode = ArrowUp ->
  negb (is_open w) && cycle_when_closed w = false ->
  items w = Some its -> its <> [] -> fn_label w = Some f ->
  match active w with
  | Obj e => if Nat.eqb keyCode ArrowDown then next (links_of (heap w) e)
             else prev (links_of (heap w) e)
  | _ => if Nat.eqb keyCode ArrowDown then index its 0 else index_last its
  end = Obj e' ->
  on_input_key_down_handler add toLowerCase keyCode false w =
    Ok tt (highlighted f e' w).
Proof.
  intros Hkey Hbranch Hi Hne Hf Hstep.
  unfold on_input_key_down_handler, highlighted.
  assert (Hdu : (keyCode =? 40) || (keyCode =? 38) = true)
    by (destruct Hkey as [->| ->]; reflexivity).
  cbn [andb]. rewrite Hdu.
  unfold bind at 1, get at 1. unfold bind at 1, get at 1. rewrite Hbranch.
  unfold bind at 1, get at 1. rewrite Hi. unfold bind at 1, array, ret at 1.
  destruct its as [|e0 its0]; [done|]. cbn [length Nat.eqb andb].
  unfold bind at 1, get at 1.
  unfold ArrowDown in Hstep.
  destruct (active w) as [| |e];
    unfold bind at 1; unfold get_next, get_prev, get, ret;
    [ | | destruct (keyCode =? 40) ];
    rewrite Hstep;
    unfold set_active_, deref, call_fn_label, scroll_to; wsimpl;
    destruct w; cbn in Hf; subst; reflexivity.
Qed.

Lemma run_app w evs1 evs2 :
  run add toLowerCase w (evs1 ++ evs2) =
  run add toLowerCase (run add toLowerCase w evs1) evs2.
Proof. apply fold_left_app. Qed.

Lemma highlighted_twice f a b w :
  highlighted f b (highlighted f a w) = highlighted f b w.
Proof. by destruct w. Qed.

Lemma arrow_down_presses w f its k :
  is_open w = true -> items w = Some its -> its <> [] ->
  fn_label w = Some f -> nullish (active w) -> ring_over (heap w) its ->
  exists e, its !! (k mod length its) = Some e /\
    run add toLowerCase w (replicate (S k) (KeyDown ArrowDown false)) =
      highlighted f e w.
Proof.
  intros Ho Hi Hne Hf Ha Hring.
  assert (Hlen : 0 < length its) by (destruct its; [done | cbn; lia]).
  induction k as [|k IH].
  - rewrite Nat.Div0.mod_0_l.
    destruct (index_lt its 0 Hlen) as [e0 He0]. exists e0. split; [done|].
    cbn [replicate run fold_left]. unfold step, dispatch.
    rewrite (arrow_in_list w f its ArrowDown e0); try done.
    + by left.
    + by rewrite Ho.
    + unfold nullish in Ha. destruct (active w); try done;
        cbn; by apply index_lookup.
  - destruct IH as (e & He & Hrun).
    assert (Hk : k mod length its < length its)
      by (apply Nat.mod_upper_bound; lia).
    destruct (index_lt its _ (succ_mod_lt _ _ Hk)) as [e' He'].
    replace ((k mod length its + 1) mod length its) with (S k mod length its)
      in He' by (rewrite Nat.Div0.add_mod_idemp_l; f_equal; lia).
    exists e'. split; [done|].
    rewrite replicate_S_end, run_app, Hrun.
    cbn [run fold_left]. unfold step, dispatch.
    rewrite (arrow_in_list (highlighted f e w) f its ArrowDown e').
    + cbn [state_of]. apply highlighted_twice.
    + by left.
    + destruct w. cbn in *. by subst.
    + destruct w. cbn in *. by subst.
    + done.
    + destruct w. cbn in *. by subst.
    + destruct (Hring _ _ He) as [Hn _].
      destruct w. cbn in *. rewrite Hn.
      replace ((k mod length its + 1) mod length its) with (S k mod length its)
        by (rewrite Nat.Div0.add_mod_idemp_l; f_equal; lia).
      by apply index_lookup.
Qed.

(** C2, as the code has it: [fill] on a non-empty list of distinct
    entries returns normally, makes that list the visible set and links
    it into one ring in list order ([next] and [prev] of every entry are
    its neighbours, a walk of N [next] steps returns to its start, no
    shorter walk does).  With the dropdown open and no active entry, the
    first ArrowDown highlights the first entry, so N presses end on the
    last entry and N + 1 presses are back on the first. *)
Theorem fill_links_one_ring_arrow_down_wraps w f its mask :
  fn_label w = Some f ->
  its <> [] ->
  NoDup (eid <$> its) ->
  is_open w = true ->
  nullish (active w) ->
  exists w',
    fill its mask w = Ok tt w' /\
    items w' = Some its /\
    ring_over (heap w') its /\
    one_cycle (heap w') its /\
    active (run add toLowerCase w'
              (replicate (length its) (KeyDown ArrowDown false))) =
      index_last its /\
    active (run add toLowerCase w'
              (replicate (S (length its)) (KeyDown ArrowDown false))) =
      index its 0.
Proof.
  intros Hf Hne Hnd Ho Ha.
  rewrite (fill_ok w f its mask Hf). eexists. split; [reflexivity|].
  set (w' := set_heap _ _).
  assert (Hring : ring_over (heap w') its)
    by (subst w'; destruct w; cbn; by apply fill_links_ring).
  assert (Hi : items w' = Some its) by (subst w'; by destruct w).
  assert (Ho' : is_open w' = true) by (subst w'; destruct w; by cbn in *).
  assert (Hf' : fn_label w' = Some f) by (subst w'; destruct w; by cbn in *).
  assert (Ha' : nullish (active w')) by (subst w'; destruct w; by cbn in *).
  split; [done|]. split; [done|].
  split; [by apply ring_one_cycle|].
  assert (Hlen : 0 < length its) by (destruct its; [done | cbn; lia]).
  split.
  - destruct (length its) as [|n] eqn:En; [lia|].
    destruct (arrow_down_presses w' f its n Ho' Hi Hne Hf' Ha' Hring)
      as (e & He & ->).
    rewrite Nat.mod_small in He by lia.
    unfold index_last. rewrite En. rewrite (index_lookup _ _ _ He).
    by destruct w'.
  - destruct (arrow_down_presses w' f its (length its) Ho' Hi Hne Hf' Ha' Hring)
      as (e & He & ->).
    rewrite Nat.Div0.mod_same in He. rewrite (index_lookup _ _ _ He).
    by destruct w'.
Qed.

(** *** Building entries *)

Lemma call_fn_node_ok w f g r :
  fn_label w = Some f -> fn_node w = Some g ->
  call_fn_node r w = Ok (content_of f g r) w.
Proof.
  intros Hf Hg. unfold call_fn_node, content_of, bind at 1, get at 1.
  rewrite Hg. destruct g as [|h]; [|reflexivity].
  destruct (rec_node r); [reflexivity|].
  unfold call_fn_label, bind, get, ret. by rewrite Hf.
Qed.

Lemma make_store_nodes_ok w f g rs :
  fn_label w = Some f -> fn_node w = Some g ->
  make_store_nodes rs w =
    Ok (new_entries f g (auto_id w) rs)
       (set_heap (fresh_links (new_entries f g (auto_id w) rs) (heap w))
          (set_auto_id (length rs + auto_id w) w)).
Proof.
  revert w. induction rs as [|r rs IH]; intros w Hf Hg.
  - cbn. unfold ret. by destruct w.
  - cbn [make_store_nodes new_entries fresh_links fold_left length].
    erewrite bind_ok by reflexivity.
    erewrite bind_ok by reflexivity.
    erewrite bind_ok by (apply (call_fn_node_ok _ f g); by destruct w).
    erewrite bind_ok by reflexivity.
    erewrite bind_ok by reflexivity.
    erewrite bind_ok by (apply IH; by destruct w).
    unfold ret. destruct w. cbn. rewrite Nat.add_succ_r. reflexivity.
Qed.

Lemma new_entries_data f g n rs : data <$> new_entries f g n rs = rs.
Proof.
  revert n. induction rs as [|r rs IH]; intros n; [done|].
  cbn. by rewrite IH.
Qed.

Lemma new_entries_eid f g n rs :
  eid <$> new_entries f g n rs = seq (S n) (length rs).
Proof.
  revert n. induction rs as [|r rs IH]; intros n; [done|].
  cbn. by rewrite IH.
Qed.

Lemma new_entries_length f g n rs : length (new_entries f g n rs) = length rs.
Proof. by rewrite <- (length_fmap data), new_entries_data. Qed.

(** *** Answers of [store_fn] *)

Lemma settle_input_ok w f g value rs :
  fn_label w = Some f -> fn_node w = Some g ->
  exists w',
    settle add (AfterInput value) rs w = Ok tt w' /\
    items w' = Some (new_entries f g (auto_id w) rs) /\
    store w' = Some (new_entries f g (auto_id w) rs) /\
    active w' = Null /\
    fn_label w' = Some f /\ fn_node w' = Some g /\
    kind w' = kind w /\ pending w' = pending w /\
    is_open w' = is_open w /\
    attached w' = negb (Nat.eqb (length rs) 0).
Proof.
  intros Hf Hg.
  assert (Hrun : settle add (AfterInput value) rs w =
    (if length rs =? 0 then close_dropdown else open_dropdown add)
      (set_heap
         (fill_links (new_entries f g (auto_id w) rs)
            (fresh_links (new_entries f g (auto_id w) rs) (heap w)))
         (set_items (Some (new_entries f g (auto_id w) rs))
            (set_active Null
               (set_store (Some (new_entries f g (auto_id w) rs))
                  (set_auto_id (length rs + auto_id w) w)))))).
  { unfold settle.
    erewrite bind_ok by (by apply make_store_nodes_ok).
    erewrite bind_ok by reflexivity.
    cbv beta iota delta [resume].
    erewrite bind_ok by reflexivity.
    erewrite bind_ok by (apply (fill_ok _ f); by destruct w).
    erewrite bind_ok by reflexivity.
    erewrite bind_ok by reflexivity.
    rewrite new_entries_length. by destruct w. }
  rewrite Hrun. clear Hrun.
  destruct w. cbn in Hf, Hg. subst.
  destruct is_open0; destruct (length rs =? 0);
    unfold close_dropdown, open_dropdown, update_dropdown_position; wsimpl;
    eexists; (split; [reflexivity|]); repeat split; done.
Qed.

Lemma step_fulfilled w k c rs :
  pending w !! k = Some c ->
  step add toLowerCase w (Fulfilled k rs) =
    state_of (settle add c rs (set_pending (delete k (pending w)) w)).
Proof.
  intros Hk. unfold step, dispatch, take_pending.
  erewrite bind_ok; [|erewrite bind_ok by reflexivity;
                      erewrite bind_ok by reflexivity; reflexivity].
  rewrite Hk. reflexivity.
Qed.

Lemma fulfilled_input w f g k value rs :
  fn_label w = Some f -> fn_node w = Some g ->
  pending w !! k = Some (AfterInput value) ->
  let w' := step add toLowerCase w (Fulfilled k rs) in
  visible_records w' = Some rs /\
  fn_label w' = Some f /\ fn_node w' = Some g /\
  pending w' = delete k (pending w).
Proof.
  intros Hf Hg Hk w'. subst w'. rewrite (step_fulfilled w k _ rs Hk).
  destruct (settle_input_ok (set_pending (delete k (pending w)) w) f g value rs)
    as (w' & -> & Hi & _ & _ & Hf' & Hg' & _ & Hp & _); [by destruct w..|].
  cbn [state_of]. unfold visible_records. rewrite Hi, Hf', Hg', Hp.
  rewrite new_entries_data. by destruct w.
Qed.

Lemma quiet_period_asks w text :
  kind w = DynamicTypeahead -> below_min text w = false ->
  run add toLowerCase w [Keystroke text; QuietPeriodOver] =
    set_timer false
      (set_pending (pending w ++ [AfterInput text])
         (set_items (Some []) (set_input_value text w))).
Proof.
  intros Hk Hb. destruct w. unfold below_min in Hb.
  cbn [kind] in Hk. cbn [min_characters] in Hb. subst.
  unfold run, fold_left, step, dispatch, debounced, delayed, async_call,
    on_input_input_handler, empty, await_refresh, below_min.
  wsimpl. rewrite Hb. reflexivity.
Qed.

(** C1, as the code has it: no answer of [store_fn] is discarded and
    there is no generation number.  With two queries asked and both
    still pending, each answer that arrives replaces the visible set by
    the entries built from it, so after both have arrived the visible
    set is the one of the answer that arrived last: the older query's
    when it arrives last, the newer query's when the answers arrive in
    the order of the queries. *)
Theorem answers_apply_in_arrival_order w f g q1 q2 r1 r2 :
  kind w = DynamicTypeahead ->
  fn_label w = Some f ->
  fn_node w = Some g ->
  pending w = [] ->
  below_min q1 w = false ->
  below_min q2 w = false ->
  let asked :=
    run add toLowerCase w
      [Keystroke q1; QuietPeriodOver; Keystroke q2; QuietPeriodOver] in
  pending asked = [AfterInput q1; AfterInput q2] /\
  visible_records (run add toLowerCase asked [Fulfilled 1 r2; Fulfilled 0 r1]) =
    Some r1 /\
  visible_records (run add toLowerCase asked [Fulfilled 0 r1; Fulfilled 0 r2]) =
    Some r2.
Proof.
  intros Hk Hf Hg Hp Hb1 Hb2 asked.
  assert (Hasked : asked =
    set_timer false
      (set_pending [AfterInput q1; AfterInput q2]
         (set_items (Some []) (set_input_value q2 w)))).
  { subst asked.
    rewrite (run_app w [Keystroke q1; QuietPeriodOver]
               [Keystroke q2; QuietPeriodOver] : run _ _ _ [_; _; _; _] = _).
    rewrite (quiet_period_asks w q1 Hk Hb1).
    rewrite quiet_period_asks;
      [| by destruct w | unfold below_min in *; by destruct w].
    destruct w. cbn in Hp. subst. reflexivity. }
  assert (Hfa : fn_label asked = Some f) by (rewrite Hasked; by destruct w).
  assert (Hga : fn_node asked = Some g) by (rewrite Hasked; by destruct w).
  assert (Hpa : pending asked = [AfterInput q1; AfterInput q2])
    by (rewrite Hasked; by destruct w).
  clearbody asked. clear Hasked.
  split; [done|]. split.
  - cbn [run fold_left].
    destruct (fulfilled_input asked f g 1 q2 r2 Hfa Hga) as (_ & Hf1 & Hg1 & Hp1);
      [by rewrite Hpa|].
    destruct (fulfilled_input _ f g 0 q1 r1 Hf1 Hg1) as (Hv & _);
      [by rewrite Hp1, Hpa|].
    exact Hv.
  - cbn [run fold_left].
    destruct (fulfilled_input asked f g 0 q1 r1 Hfa Hga) as (_ & Hf1 & Hg1 & Hp1);
      [by rewrite Hpa|].
    destruct (fulfilled_input _ f g 0 q2 r2 Hf1 Hg1) as (Hv & _);
      [by rewrite Hp1, Hpa|].
    exact Hv.
Qed.

(** ** Further properties of the selector *)

(** *** Building and assigning a store *)

Lemma links_of_fresh_links (st : list entry) (h : gmap nat links) e :
  links_of (fresh_links st h) e =
    if bool_decide (eid e ∈ eid <$> st) then Links Null Null else links_of h e.
Proof.
  revert h. induction st as [|x st IH]; intros h; [done|].
  cbn [fresh_links fold_left].
  change (links_of (fresh_links st (write_prev x Null (write_next x Null h))) e =
          if bool_decide (eid e ∈ eid <$> x :: st) then Links Null Null
          else links_of h e).
  rewrite IH. rewrite fmap_cons.
  destruct (bool_decide (eid e ∈ eid <$> st)) eqn:E1.
  - apply bool_decide_eq_true in E1.
    rewrite bool_decide_eq_true_2 by (apply elem_of_cons; by right). done.
  - apply bool_decide_eq_false in E1.
    destruct (decide (eid x = eid e)) as [Heq|Hne].
    + rewrite bool_decide_eq_true_2 by (apply elem_of_cons; by left).
      unfold links_of, write_prev, write_next. rewrite <- Heq.
      rewrite lookup_insert_eq. cbn. unfold links_of.
      rewrite lookup_insert_eq. done.
    + rewrite bool_decide_eq_false_2
        by (intros [H|H]%elem_of_cons; [congruence | done]).
      unfold links_of, write_prev, write_next.
      by rewrite !lookup_insert_ne.
Qed.

Lemma new_entries_NoDup f g n rs : NoDup (eid <$> new_entries f g n rs).
Proof. rewrite new_entries_eid. apply NoDup_seq. Qed.

(** X1: with both derivation functions set, [make_store_nodes] returns
    normally with one entry per record, in order; the entries get the
    next identifiers after the last one handed out, so they are pairwise
    distinct and distinct from every older entry; their links are null,
    and the links of older entries are untouched. *)
Theorem make_store_nodes_builds_fresh_entries w f g rs :
  fn_label w = Some f ->
  fn_node w = Some g ->
  exists st w',
    make_store_nodes rs w = Ok st w' /\
    data <$> st = rs /\
    eid <$> st = seq (S (auto_id w)) (length rs) /\
    NoDup (eid <$> st) /\
    auto_id w' = length rs + auto_id w /\
    (forall e, e ∈ st -> links_of (heap w') e = Links Null Null) /\
    (forall e, eid e <= auto_id w -> links_of (heap w') e = links_of (heap w) e).
Proof.
  intros Hf Hg. rewrite (make_store_nodes_ok w f g rs Hf Hg).
  eexists _, _. split; [reflexivity|].
  split; [apply new_entries_data|]. split; [apply new_entries_eid|].
  split; [apply new_entries_NoDup|]. split; [by destruct w|].
  split.
  - intros e He. destruct w. cbn [heap set_heap]. rewrite links_of_fresh_links.
    rewrite bool_decide_eq_true_2; [done|]. by apply list_elem_of_fmap_2.
  - intros e He. destruct w. cbn [heap set_heap auto_id] in *.
    rewrite links_of_fresh_links.
    rewrite bool_decide_eq_false_2; [done|].
    rewrite new_entries_eid. intros Hin%elem_of_seq. lia.
Qed.

(** *** Selecting by index and by predicate *)

Lemma select_index_ok w f st i :
  store w = Some st -> fn_label w = Some f ->
  let it := if Nat.eqb i (length st) then Null else index st i in
  select_index i w =
    Ok tt (set_input_value (match it with Obj e => f (data e) | _ => [] end)
             (set_item it w)).
Proof.
  intros Hs Hf it. unfold select_index.
  erewrite bind_ok by (unfold get; by rewrite Hs).
  erewrite bind_ok by reflexivity.
  unfold set_item_. erewrite bind_ok by reflexivity.
  erewrite bind_ok by (apply (label_ok _ f); by destruct w).
  by destruct w.
Qed.

(** X2: [select_index(i)] on a widget with a store and a label function
    never throws and never emits.  An index inside the store selects
    that entry and shows its label; the index equal to the length of the
    store clears the selection (null) and the input; an index beyond
    that leaves [undefined] as the selection, with an empty input.
    Without a store it throws and changes nothing. *)
Theorem select_index_by_position w f st i :
  store w = Some st ->
  fn_label w = Some f ->
  exists w',
    select_index i w = Ok tt w' /\
    emitted w' = emitted w /\ store w' = store w /\ active w' = active w /\
    (forall e, st !! i = Some e ->
       item w' = Obj e /\ input_value w' = f (data e)) /\
    (i = length st -> item w' = Null /\ input_value w' = []) /\
    (length st < i -> item w' = Undefined /\ input_value w' = []) /\
    select_index i (set_store None w) = TypeError (set_store None w).
Proof.
  intros Hs Hf. rewrite (select_index_ok w f st i Hs Hf).
  eexists. split; [reflexivity|].
  split; [by destruct w|]. split; [by destruct w|]. split; [by destruct w|].
  split; [|split; [|split]].
  - intros e He.
    assert (i < length st) by (by eapply lookup_lt_Some).
    replace (i =? length st) with false by (symmetry; apply Nat.eqb_neq; lia).
    rewrite (index_lookup _ _ _ He). by destruct w.
  - intros ->. rewrite Nat.eqb_refl. by destruct w.
  - intros Hi.
    replace (i =? length st) with false by (symmetry; apply Nat.eqb_neq; lia).
    unfold index. rewrite lookup_ge_None_2 by lia. by destruct w.
  - by destruct w.
Qed.

Lemma first_accepted_spec delegate (st : list entry) n :
  let i := first_accepted delegate st n in
  n <= i <= n + length st /\
  (forall j e, n <= j < i -> st !! (j - n) = Some e ->
     delegate (data e) j = false) /\
  (i < n + length st ->
     exists e, st !! (i - n) = Some e /\ delegate (data e) i = true).
Proof.
  revert n. induction st as [|x st IH]; intros n; cbn.
  - repeat split; try lia; done.
  - destruct (delegate (data x) n) eqn:E.
    + repeat split; try lia. intros _. exists x.
      by rewrite Nat.sub_diag.
    + destruct (IH (S n)) as (Hr & Hbefore & Hat). repeat split; try lia.
      * intros j e Hj He. destruct (decide (j = n)) as [->|Hne].
        -- rewrite Nat.sub_diag in He. cbn in He. congruence.
        -- apply Hbefore; [lia|].
           replace (j - n) with (S (j - S n)) in He by lia. done.
      * intros Hlt. destruct Hat as (e & He & Hd); [lia|].
        exists e. split; [|done].
        replace (first_accepted delegate st (S n) - n)
          with (S (first_accepted delegate st (S n) - S n)) by lia.
        done.
Qed.

(** X3: [select(delegate)] selects the first entry of the store whose
    record, with its position, the delegate accepts, and shows its
    label; when the delegate accepts none, the selection is cleared and
    the input emptied.  Nothing is emitted either way. *)
Theorem select_picks_first_accepted w f st delegate :
  store w = Some st ->
  fn_label w = Some f ->
  exists w',
    select delegate w = Ok tt w' /\
    emitted w' = emitted w /\
    ((exists i e,
        st !! i = Some e /\ delegate (data e) i = true /\
        (forall j e', j < i -> st !! j = Some e' ->
           delegate (data e') j = false) /\
        item w' = Obj e /\ input_value w' = f (data e)) \/
     ((forall j e', st !! j = Some e' -> delegate (data e') j = false) /\
      item w' = Null /\ input_value w' = [])).
Proof.
  intros Hs Hf. unfold select.
  erewrite bind_ok by (unfold get; by rewrite Hs).
  erewrite bind_ok by reflexivity.
  rewrite (select_index_ok w f st _ Hs Hf).
  eexists. split; [reflexivity|]. split; [by destruct w|].
  destruct (first_accepted_spec delegate st 0) as (Hr & Hbefore & Hat).
  cbn in Hr, Hbefore, Hat.
  destruct (decide (first_accepted delegate st 0 < length st)) as [Hlt|Hge].
  - left. destruct (Hat Hlt) as (e & He & Hd).
    rewrite Nat.sub_0_r in He.
    exists (first_accepted delegate st 0), e.
    split; [done|]. split; [done|]. split.
    + intros j e' Hj He'. apply Hbefore; [lia|]. by rewrite Nat.sub_0_r.
    + replace (_ =? length st) with false
        by (symmetry; apply Nat.eqb_neq; lia).
      rewrite (index_lookup _ _ _ He). by destruct w.
  - right. split.
    + intros j e' He'.
      assert (j < length st) by (by eapply lookup_lt_Some).
      apply Hbefore; [lia|]. by rewrite Nat.sub_0_r.
    + replace (first_accepted delegate st 0) with (length st) by lia.
      rewrite Nat.eqb_refl. by destruct w.
Qed.

Lemma set_store_select_ok w f g rs :
  kind w = Select -> fn_label w = Some f -> fn_node w = Some g ->
  let st := new_entries f g (auto_id w) rs in
  let it := if Nat.eqb 0 (length st) then Null else index st 0 in
  set_store_ rs w =
    Ok tt
      (Widget (kind w) (fn_label w) (fn_node w) (cycle_when_closed w)
         (min_characters w) (handle_min_characters w) (Some st) (Some st) it
         (active w) (is_open w)
         (match it with Obj e => f (data e) | _ => [] end)
         (attached w) (resize_listening w) (placement w) (win w)
         (fill_links st (fresh_links st (heap w)))
         (length rs + auto_id w) (emitted w) (pending w) (timer w)).
Proof.
  intros Hk Hf Hg st it. unfold set_store_.
  erewrite bind_ok by (by apply make_store_nodes_ok).
  erewrite bind_ok by reflexivity.
  erewrite bind_ok by (unfold get; cbn [kind set_store set_heap set_auto_id];
                       rewrite Hk; reflexivity).
  cbv beta iota.
  erewrite bind_ok by (apply (fill_ok _ f); by destruct w).
  erewrite (select_index_ok _ f st) by (by destruct w).
  fold st. fold it. by destruct w.
Qed.

(** X4: assigning a store to a plain selector that has both derivation
    functions never throws and emits nothing.  It builds one entry per
    record, shows them all, links them into one ring in store order,
    selects the first entry and puts its label into the input; an empty
    store leaves no selection and an empty input.  Afterwards [first]
    and [last] return the first and last record, and throw on an empty
    store; [selected] is the first record, [undefined] on an empty
    store.  The open flag and the active entry are left as they were. *)
Theorem store_assignment_on_a_selector w f g rs :
  kind w = Select ->
  fn_label w = Some f ->
  fn_node w = Some g ->
  exists st w',
    set_store_ rs w = Ok tt w' /\
    data <$> st = rs /\
    store w' = Some st /\ items w' = Some st /\
    ring_over (heap w') st /\
    item w' = (match st with e :: _ => Obj e | [] => Null end) /\
    input_value w' = (match rs with r :: _ => f r | [] => [] end) /\
    selected w' = head rs /\
    first w' = (match rs with r :: _ => Ok r w' | [] => TypeError w' end) /\
    last w' =
      (match rs !! (length rs - 1) with
       | Some r => Ok r w'
       | None => TypeError w'
       end) /\
    emitted w' = emitted w /\ is_open w' = is_open w /\ active w' = active w.
Proof.
  intros Hk Hf Hg. rewrite (set_store_select_ok w f g rs Hk Hf Hg).
  eexists (new_entries f g (auto_id w) rs), _. split; [reflexivity|].
  split; [apply new_entries_data|].
  split; [done|]. split; [done|].
  split.
  { cbn [heap]. apply fill_links_ring, new_entries_NoDup. }
  destruct rs as [|r rs].
  - repeat split; reflexivity.
  - split; [done|]. split; [done|]. split; [done|].
    split; [done|]. split; [|done].
    unfold last, index_last.
    erewrite bind_ok by reflexivity.
    erewrite bind_ok by reflexivity.
    rewrite new_entries_length. cbn [length Nat.sub]. rewrite Nat.sub_0_r.
    assert (Hlt : length rs < length (new_entries f g (auto_id w) (r :: rs)))
      by (rewrite new_entries_length; cbn; lia).
    destruct (index_lt _ _ Hlt) as [e He].
    rewrite (index_lookup _ _ _ He).
    assert (Hd : (r :: rs) !! length rs = Some (data e)).
    { rewrite <- (new_entries_data f g (auto_id w) (r :: rs)).
      by rewrite list_lookup_fmap, He. }
    rewrite Hd. reflexivity.
Qed.

(** X5: assigning a store to a typeahead or a dynamic typeahead only
    builds the entries: the visible set, the selection, the input, the
    active entry and the open flag stay as they were, nothing is
    emitted, and the links of the entries shown before are untouched. *)
Theorem store_assignment_on_a_typeahead w f g rs :
  kind w <> Select ->
  fn_label w = Some f ->
  fn_node w = Some g ->
  exists st w',
    set_store_ rs w = Ok tt w' /\
    data <$> st = rs /\
    store w' = Some st /\
    items w' = items w /\ item w' = item w /\
    input_value w' = input_value w /\ active w' = active w /\
    is_open w' = is_open w /\ emitted w' = emitted w /\
    (forall e, eid e <= auto_id w -> links_of (heap w') e = links_of (heap w) e).
Proof.
  intros Hk Hf Hg. unfold set_store_.
  erewrite bind_ok by (by apply make_store_nodes_ok).
  erewrite bind_ok by reflexivity.
  erewrite bind_ok by reflexivity.
  cbn [kind set_store set_heap set_auto_id].
  exists (new_entries f g (auto_id w) rs).
  destruct (kind w) eqn:Ek; [done| |];
    eexists; (split; [reflexivity|]); (split; [apply new_entries_data|]);
    destruct w; cbn [store items item input_value active is_open emitted heap
                     set_store set_heap set_auto_id auto_id];
    repeat (split; [reflexivity|]);
    intros e He; rewrite links_of_fresh_links;
    (rewrite bool_decide_eq_false_2; [done|]);
    rewrite new_entries_eid; intros Hin%elem_of_seq; lia.
Qed.

(** *** Dismissing *)

(** X6: Escape, loss of focus and a click on an open widget all dismiss
    in the same way: with a label function set they never throw, clear
    the active entry, close ([is_open] false, overlay detached, resize
    listener removed), empty the visible set and restore the input to
    the label of the selection (empty when there is none); the
    selection is not changed and nothing is emitted. *)
Theorem dismiss_resets_and_keeps_selection w f shiftKey :
  fn_label w = Some f ->
  exists w',
    on_input_blur_handler w = Ok tt w' /\
    on_input_key_down_handler add toLowerCase Escape shiftKey w = Ok tt w' /\
    (is_open w = true -> on_input_click_handler add toLowerCase w = Ok tt w') /\
    active w' = Null /\ is_open w' = false /\
    attached w' = false /\ resize_listening w' = false /\
    items w' = Some [] /\
    input_value w' = (match item w with Obj e => f (data e) | _ => [] end) /\
    item w' = item w /\ emitted w' = emitted w /\ store w' = store w.
Proof.
  intros Hf.
  assert (Hblur : on_input_blur_handler w =
    Ok tt (set_resize_listening false (set_attached false
      (set_input_value (match item w with Obj e => f (data e) | _ => [] end)
         (set_items (Some []) (set_is_open false (set_active Null w))))))).
  { unfold on_input_blur_handler.
    erewrite bind_ok by (by apply reset_ok). reflexivity. }
  eexists. split; [exact Hblur|]. split; [|split].
  - unfold on_input_key_down_handler, Escape.
    replace (shiftKey && (27 =? 38)) with false by (by destruct shiftKey).
    exact Hblur.
  - intros Ho. unfold on_input_click_handler.
    erewrite bind_ok by reflexivity.
    destruct (kind w);
      [ unfold Select_on_input_click_handler
      | unfold Typeahead_on_input_click_handler
      | unfold Typeahead_on_input_click_handler ];
      (erewrite bind_ok by (unfold get; rewrite Ho; reflexivity));
      exact Hblur.
  - by destruct w.
Qed.

(** *** Arrow keys: the empty list, and going back *)

(** X7: ArrowUp or ArrowDown on an empty visible set.  With cycling
    disabled the key is a no-op, open or closed.  With cycling enabled,
    the dropdown open and no active entry, the handler stores
    [undefined] as the active entry and then throws. *)
Theorem arrow_on_an_empty_list w keyCode :
  keyCode = ArrowDown \/ keyCode = ArrowUp ->
  items w = Some [] ->
  (cycle_when_closed w = false ->
     on_input_key_down_handler add toLowerCase keyCode false w = Ok tt w) /\
  (cycle_when_closed w = true -> is_open w = true -> nullish (active w) ->
     on_input_key_down_handler add toLowerCase keyCode false w =
       TypeError (set_active Undefined w)).
Proof.
  intros Hkey Hi.
  assert (Hdu : (keyCode =? 40) || (keyCode =? 38) = true)
    by (destruct Hkey as [->| ->]; reflexivity).
  split.
  - intros Hc. unfold on_input_key_down_handler. cbn [andb]. rewrite Hdu.
    erewrite bind_ok by reflexivity. erewrite bind_ok by reflexivity.
    rewrite Hc, andb_false_r.
    erewrite bind_ok by (unfold get; rewrite Hi; reflexivity).
    erewrite bind_ok by reflexivity. reflexivity.
  - intros Hc Ho Ha. unfold on_input_key_down_handler. cbn [andb]. rewrite Hdu.
    erewrite bind_ok by reflexivity. erewrite bind_ok by reflexivity.
    rewrite Hc, Ho. cbn [negb andb].
    erewrite bind_ok by (unfold get; rewrite Hi; reflexivity).
    erewrite bind_ok by reflexivity. cbn [length Nat.eqb negb andb].
    erewrite bind_ok by reflexivity.
    unfold nullish in Ha.
    assert (Hund : (if keyCode =? 40 then index [] 0 else index_last []) = Undefined)
      by (by destruct (keyCode =? 40)).
    destruct (active w) eqn:E; try done;
      (erewrite bind_ok by reflexivity); rewrite Hund;
      unfold set_active_; (erewrite bind_ok by reflexivity); reflexivity.
Qed.

Lemma ring_next_prev (h : gmap nat links) (its : list entry) i e :
  ring_over h its -> its !! i = Some e ->
  exists e1, next (links_of h e) = Obj e1 /\ prev (links_of h e1) = Obj e.
Proof.
  intros Hring He.
  assert (Hi : i < length its) by (by eapply lookup_lt_Some).
  destruct (index_lt its _ (succ_mod_lt i _ Hi)) as [e1 He1].
  exists e1. destruct (Hring i e He) as [Hn _].
  split; [by rewrite Hn; apply index_lookup|].
  destruct (Hring _ e1 He1) as [_ Hp]. rewrite Hp.
  replace (((i + 1) mod length its + length its - 1) mod length its) with i;
    [by apply index_lookup|].
  rewrite succ_mod by done. case_decide.
  - rewrite Nat.add_0_l. rewrite Nat.mod_small by lia. lia.
  - replace (i + 1 + length its - 1) with (i + 1 * length its) by lia.
    rewrite Nat.Div0.mod_add. by rewrite Nat.mod_small.
Qed.

Lemma ring_prev_next (h : gmap nat links) (its : list entry) i e :
  ring_over h its -> its !! i = Some e ->
  exists e1, prev (links_of h e) = Obj e1 /\ next (links_of h e1) = Obj e.
Proof.
  intros Hring He.
  assert (Hi : i < length its) by (by eapply lookup_lt_Some).
  assert (Hj : (i + length its - 1) mod length its < length its)
    by (apply Nat.mod_upper_bound; lia).
  destruct (index_lt its _ Hj) as [e1 He1].
  exists e1. destruct (Hring i e He) as [_ Hp].
  split; [by rewrite Hp; apply index_lookup|].
  destruct (Hring _ e1 He1) as [Hn _]. rewrite Hn.
  replace (((i + length its - 1) mod length its + 1) mod length its) with i;
    [by apply index_lookup|].
  rewrite Nat.Div0.add_mod_idemp_l.
  replace (i + length its - 1 + 1) with (i + 1 * length its) by lia.
  rewrite Nat.Div0.mod_add. by rewrite Nat.mod_small.
Qed.

(** X8: in the list that was last filled, ArrowUp undoes ArrowDown and
    ArrowDown undoes ArrowUp: from an active entry of the visible ring,
    either pair of presses returns normally and ends on the same active
    entry, with its label in the input and nothing else changed. *)
Theorem arrow_up_undoes_arrow_down w f its i e :
  negb (is_open w) && cycle_when_closed w = false ->
  items w = Some its ->
  fn_label w = Some f ->
  ring_over (heap w) its ->
  its !! i = Some e ->
  active w = Obj e ->
  run add toLowerCase w [KeyDown ArrowDown false; KeyDown ArrowUp false] =
    highlighted f e w /\
  run add toLowerCase w [KeyDown ArrowUp false; KeyDown ArrowDown false] =
    highlighted f e w.
Proof.
  intros Hb Hi Hf Hring He Ha.
  assert (Hne : its <> []) by (intros ->; done).
  destruct (ring_next_prev _ _ _ _ Hring He) as (e1 & Hn1 & Hp1).
  destruct (ring_prev_next _ _ _ _ Hring He) as (e2 & Hp2 & Hn2).
  split; cbn [run fold_left]; unfold step, dispatch.
  - rewrite (arrow_in_list w f its ArrowDown e1); try done;
      [| by left | by rewrite Ha].
    cbn [state_of].
    rewrite (arrow_in_list (highlighted f e1 w) f its ArrowUp e);
      [ cbn [state_of]; apply highlighted_twice
      | by right | by destruct w | by destruct w | done | by destruct w
      | destruct w; cbn in *; done ].
  - rewrite (arrow_in_list w f its ArrowUp e2); try done;
      [| by right | by rewrite Ha].
    cbn [state_of].
    rewrite (arrow_in_list (highlighted f e2 w) f its ArrowDown e);
      [ cbn [state_of]; apply highlighted_twice
      | by left | by destruct w | by destruct w | done | by destruct w
      | destruct w; cbn in *; done ].
Qed.

(** *** Arrow keys on a closed selector *)

Lemma closed_arrow_commits w st keyCode :
  keyCode = ArrowDown \/ keyCode = ArrowUp ->
  is_open w = false -> cycle_when_closed w = true -> store w = Some st ->
  on_input_key_down_handler add toLowerCase keyCode false w =
    on_li_click_handler
      (match item w with
       | Obj e => if Nat.eqb keyCode ArrowDown then next (links_of (heap w) e)
                  else prev (links_of (heap w) e)
       | _ => index st 0
       end) w.
Proof.
  intros Hkey Ho Hc Hs.
  assert (Hdu : (keyCode =? 40) || (keyCode =? 38) = true)
    by (destruct Hkey as [->| ->]; reflexivity).
  unfold on_input_key_down_handler. cbn [andb]. rewrite Hdu.
  erewrite bind_ok by reflexivity. erewrite bind_ok by reflexivity.
  rewrite Ho, Hc. cbn [negb andb].
  erewrite bind_ok by (unfold get; rewrite Hs; reflexivity).
  erewrite bind_ok by reflexivity. erewrite bind_ok by reflexivity.
  unfold ArrowDown.
  destruct (item w) as [| |e]; [reflexivity | reflexivity |].
  destruct (keyCode =? 40); reflexivity.
Qed.

Lemma scrolled_records_S st k e :
  st !! (S k mod length st) = Some e ->
  scrolled_records st (S k) = scrolled_records st k ++ [data e].
Proof.
  intros He. unfold scrolled_records.
  rewrite seq_S, flat_map_app. cbn [flat_map Nat.add]. by rewrite He, app_nil_r.
Qed.

(** X9: scrolling through the options of a closed selector.  With
    cycling enabled, the dropdown closed, at least two distinct entries
    in the store linked as one ring and the first of them selected,
    [k] presses of ArrowDown leave the entry at position [k mod N] of
    the store selected and have emitted, in order, one select-change
    for each entry passed; the dropdown stays closed with no active
    entry. *)
Theorem closed_arrow_down_scrolls_the_options w f st e0 k :
  is_open w = false ->
  cycle_when_closed w = true ->
  fn_label w = Some f ->
  store w = Some st ->
  ring_over (heap w) st ->
  NoDup (eid <$> st) ->
  2 <= length st ->
  st !! 0 = Some e0 ->
  item w = Obj e0 ->
  nullish (active w) ->
  let w' := run add toLowerCase w (replicate k (KeyDown ArrowDown false)) in
  item w' = index st (k mod length st) /\
  emitted w' = emitted w ++ scrolled_records st k /\
  is_open w' = false /\ nullish (active w').
Proof.
  intros Ho Hc Hf Hs Hring Hnd Hlen He0 Hitem Hact w'. subst w'.
  assert (Hinv :
    let w' := run add toLowerCase w (replicate k (KeyDown ArrowDown false)) in
    (is_open w' = false /\ cycle_when_closed w' = true /\
     fn_label w' = Some f /\ store w' = Some st /\ heap w' = heap w /\
     nullish (active w')) /\
    item w' = index st (k mod length st) /\
    emitted w' = emitted w ++ scrolled_records st k).
  { induction k as [|k IH].
    - cbn [replicate run fold_left]. rewrite Nat.Div0.mod_0_l.
      rewrite (index_lookup _ _ _ He0).
      unfold scrolled_records. cbn. by rewrite app_nil_r.
    - rewrite replicate_S_end, run_app.
      set (wk := run add toLowerCase w (replicate k (KeyDown ArrowDown false))) in *.
      destruct IH as ((Ho' & Hc' & Hf' & Hs' & Hh' & _) & Hi' & He').
      assert (Hk : k mod length st < length st)
        by (apply Nat.mod_upper_bound; lia).
      destruct (index_lt st _ Hk) as [e He].
      destruct (index_lt st _ (succ_mod_lt _ _ Hk)) as [e' Hn].
      assert (Hsk : (k mod length st + 1) mod length st = S k mod length st)
        by (rewrite Nat.Div0.add_mod_idemp_l; f_equal; lia).
      rewrite Hsk in Hn.
      rewrite (index_lookup _ _ _ He) in Hi'.
      cbn [run fold_left]. unfold step, dispatch.
      rewrite (closed_arrow_commits wk st ArrowDown) by (done || by left).
      rewrite Hi', Hh'. cbn [Nat.eqb ArrowDown].
      destruct (Hring _ _ He) as [Hnext _]. rewrite Hnext, Hsk.
      rewrite (index_lookup _ _ _ Hn).
      rewrite (on_li_click_handler_ok wk f e' Hf'). rewrite Hi'.
      assert (Hneq : strict_eq (Obj e') (Obj e) = false).
      { cbn. apply Nat.eqb_neq. intros Heq.
        assert (S k mod length st = k mod length st) as Hmod
          by eauto using eid_inj.
        rewrite <- Hsk in Hmod. rewrite succ_mod in Hmod by done.
        case_decide; lia. }
      rewrite Hneq. cbn [state_of].
      rewrite (scrolled_records_S st k e' Hn), app_assoc, <- He'.
      destruct wk. cbn in *. subst. repeat split; done. }
  destruct Hinv as ((Ho' & _ & _ & _ & _ & Ha') & Hi' & He').
  done.
Qed.

(** *** What the handlers leave alone *)

Lemma leads_bind {A B} (P R Q : widget (num := num) -> Prop)
    (m : M A) (k : A -> M B) :
  leads P R m -> (forall w, R w -> Q w) -> (forall a, leads R Q (k a)) ->
  leads P Q (bind m k).
Proof.
  intros Hm Hrq Hk w H. unfold bind. specialize (Hm w H).
  destruct (m w) as [a w1|w1]; cbn in *; [by apply Hk | by apply Hrq].
Qed.

Lemma make_store_nodes_preserves P rs :
  (forall w v, P w -> P (set_auto_id v w)) ->
  (forall w h, P w -> P (set_heap h w)) ->
  preserves (num := num) P (make_store_nodes rs).
Proof.
  intros Ha Hh. induction rs as [|r rs IH]; cbn [make_store_nodes].
  - apply preserves_ret.
  - unfold call_fn_node, call_fn_label, put_next, put_prev.
    repeat first
      [ preserve_step | simple apply preserves_modify; intros ? ?; auto ].
Qed.

Ltac unfold_handlers :=
  unfold dispatch, delayed, debounced, take_pending,
    on_input_key_down_handler, on_input_click_handler,
    Select_on_input_click_handler, Typeahead_on_input_click_handler,
    on_input_input_handler, on_input_blur_handler, on_li_click_handler,
    settle, await_refresh, set_store_,
    select, select_index, reset, label, empty, open_dropdown,
    update_dropdown_position, close_dropdown, Select_refresh,
    call_fn_node, call_fn_label, set_active_, set_item_, scroll_to, deref,
    array, emit_select_change, get_next, get_prev.

Ltac handlers :=
  unfold_handlers;
  cbv beta iota delta [resume];
  unfold_handlers.

Ltac frame_step :=
  first
    [ preserve_step
    | simple apply fill_preserves;
      intros; autounfold with frame in *; cbn; tauto
    | simple apply make_store_nodes_preserves;
      intros; autounfold with frame in *; cbn; tauto ].

Ltac frame := handlers; repeat frame_step.

Lemma resume_selection it em k its :
  preserves (selection_is it em) (resume add k its).
Proof. destruct k; frame. Qed.

Lemma settle_selection it em c rs :
  preserves (selection_is it em) (settle add c rs).
Proof. unfold settle. destruct c; frame. Qed.

Lemma click_selection it em :
  preserves (selection_is it em) (on_input_click_handler add toLowerCase).
Proof. unfold on_input_click_handler, await_refresh. frame. Qed.

Ltac by_frame :=
  match goal with
  | |- ?P (state_of (?m ?w0)) =>
      let Hp := fresh "Hp" in
      assert (preserves P m) as Hp by frame;
      apply (Hp w0); autounfold with frame in *; tauto
  end.

Lemma key_without_commit_selection w keyCode shiftKey :
  may_commit w (KeyDown keyCode shiftKey) = false ->
  selection_is (item w) (emitted w)
    (state_of (on_input_key_down_handler add toLowerCase keyCode shiftKey w)).
Proof.
  intros Hm. cbn [may_commit] in Hm. unfold on_input_key_down_handler.
  destruct (shiftKey && (keyCode =? 38)); [done|].
  destruct ((keyCode =? 40) || (keyCode =? 38)).
  - erewrite bind_ok by reflexivity. erewrite bind_ok by reflexivity.
    rewrite Hm. by_frame.
  - destruct (keyCode =? 13).
    + erewrite bind_ok by reflexivity. rewrite Hm. cbn [negb].
      apply (click_selection (item w) (emitted w) w). done.
    + destruct (keyCode =? 27); [|done].
      by_frame.
Qed.

Lemma quiet_event_selection w ev :
  may_commit w ev = false ->
  item (step add toLowerCase w ev) = item w /\
  emitted (step add toLowerCase w ev) = emitted w.
Proof.
  intros Hm. unfold step.
  change (selection_is (item w) (emitted w)
            (state_of (dispatch add toLowerCase ev w))).
  destruct ev as [|keyCode shiftKey| |e|v|text| |k rs|k|value];
    try discriminate Hm.
  - apply (click_selection (item w) (emitted w) w). done.
  - by apply key_without_commit_selection.
  - by_frame.
  - by_frame.
  - by_frame.
  - by_frame.
  - unfold dispatch. by_frame.
  - by_frame.
Qed.

(** X10: the selection persists.  Every event other than a commit (a
    press on an entry, Enter while open, an arrow key while closed with
    cycling enabled, the host assigning a store) leaves the selected
    entry as it was and emits nothing: clicks on the input, loss of
    focus, Escape, navigation in the open list, resizes, keystrokes,
    the debounced refresh and the answers of [store_fn]. *)
Theorem other_events_keep_the_selection w ev :
  may_commit w ev = false ->
  item (step add toLowerCase w ev) = item w /\
  emitted (step add toLowerCase w ev) = emitted w.
Proof.
  intros Hm. unfold step.
  change (selection_is (item w) (emitted w)
            (state_of (dispatch add toLowerCase ev w))).
  destruct ev as [|keyCode shiftKey| |e|v|text| |k rs|k|value];
    try discriminate Hm.
  - apply (click_selection (item w) (emitted w) w). done.
  - by apply key_without_commit_selection.
  - by_frame.
  - by_frame.
  - by_frame.
  - by_frame.
  - unfold dispatch. by_frame.
  - by_frame.
Qed.

Lemma li_emits_at_most_once it w :
  emitted (state_of (on_li_click_handler it w)) = emitted w \/
  exists e, it = Obj e /\
    emitted (state_of (on_li_click_handler it w)) = emitted w ++ [data e].
Proof.
  unfold on_li_click_handler.
  erewrite bind_ok by reflexivity. unfold set_item_ at 1.
  erewrite bind_ok by reflexivity.
  set (P := selection_is (num := num) it (emitted w)).
  set (Q := fun x : widget (num := num) =>
              emitted x = emitted w \/
              exists e, it = Obj e /\ emitted x = emitted w ++ [data e]).
  assert (HPQ : forall x, P x -> Q x) by (intros x [_ He]; by left).
  match goal with
  | |- context [state_of (?m ?w0)] => change (Q (state_of (m w0)))
  end.
  assert (Hr : preserves P reset) by (unfold P; frame).
  assert (Hc : preserves P close_dropdown) by (unfold P; frame).
  assert (Hg : preserves P (get item)) by apply preserves_get.
  assert (Hl : leads P Q
    (bind reset (fun _ => bind close_dropdown (fun _ =>
       bind (get item) (fun now =>
         if strict_eq now (item w) then ret tt else emit_select_change))))).
  { apply (leads_bind P P Q); [exact Hr | exact HPQ |]. intros _.
    apply (leads_bind P P Q); [exact Hc | exact HPQ |]. intros _.
    apply (leads_bind P P Q); [exact Hg | exact HPQ |]. intros now.
    destruct (strict_eq now (item w)); [intros x Hx; by apply HPQ|].
    intros x [Hi He]. unfold emit_select_change.
    erewrite bind_ok by reflexivity. rewrite Hi.
    destruct it as [| |e]; cbn; [by left | by left |].
    right. exists e. by rewrite He. }
  apply Hl. unfold P. by destruct w.
Qed.

(** X11: no event emits more than one select-change, and none removes
    or alters an earlier one: after any event the notifications are
    those sent before, followed by at most one new one. *)
Theorem at_most_one_notification_per_event w ev :
  emitted (step add toLowerCase w ev) = emitted w \/
  exists r, emitted (step add toLowerCase w ev) = emitted w ++ [r].
Proof.
  destruct (may_commit w ev) eqn:Hm;
    [| left; by apply quiet_event_selection].
  destruct ev as [|keyCode shiftKey| |e|v|text| |k rs|k|value];
    try discriminate Hm; unfold step.
  - cbn [may_commit] in Hm. unfold dispatch, on_input_key_down_handler.
    destruct (shiftKey && (keyCode =? 38)); [done|].
    destruct ((keyCode =? 40) || (keyCode =? 38)).
    + erewrite bind_ok by reflexivity. erewrite bind_ok by reflexivity.
      rewrite Hm. erewrite bind_ok by reflexivity.
      destruct (store w) as [st|]; [|by left].
      erewrite bind_ok by reflexivity. erewrite bind_ok by reflexivity.
      match goal with
      | |- context [bind ?m ?k w] =>
          assert (exists nxt, m w = Ok nxt w) as [nxt Hn]
            by (destruct (item w); [eexists; reflexivity..|];
                destruct (keyCode =? 40); eexists; reflexivity);
          rewrite (bind_ok m k w nxt w Hn)
      end.
      destruct (li_emits_at_most_once nxt w) as [H|(e & _ & H)];
        [by left | right; by exists (data e)].
    + destruct (keyCode =? 13); [|done].
      erewrite bind_ok by reflexivity. rewrite Hm. cbn [negb].
      erewrite bind_ok by reflexivity.
      destruct (truthy (active w)).
      * destruct (li_emits_at_most_once (active w) w) as [H|(e & _ & H)];
          [by left | right; by exists (data e)].
      * erewrite bind_ok by reflexivity.
        destruct (items w) as [its|]; [|by left].
        erewrite bind_ok by reflexivity.
        destruct (0 <? length its); [|by left].
        destruct (li_emits_at_most_once (index its 0) w) as [H|(e & _ & H)];
          [by left | right; by exists (data e)].
  - destruct (li_emits_at_most_once (Obj e) w) as [H|(e' & _ & H)];
      [by left | right; by exists (data e')].
  - left. change (emitted_is (emitted w)
                    (state_of (dispatch add toLowerCase (StoreAssigned value) w))).
    by_frame.
Qed.

(** *** The closed selector has no active entry *)

Lemma sync_inactive_safe k w : sync_inactive k w -> sync_safe k w.
Proof. autounfold with frame. tauto. Qed.

Lemma sync_open_safe k w : sync_open k w -> sync_safe k w.
Proof. autounfold with frame. intros [H Ho]. split; [done|]. congruence. Qed.

Lemma sync_safe_sync k w : sync_safe k w -> synchronous k w.
Proof. by intros [H _]. Qed.

Lemma reset_inactive k :
  leads (synchronous k) (sync_inactive k) (reset (num := num)).
Proof.
  intros w H. unfold reset. unfold set_active_ at 1.
  erewrite bind_ok by reflexivity.
  assert (Hp : preserves (sync_inactive k)
                 (bind (modify (set_is_open false)) (fun _ : unit =>
                    bind empty (fun _ : unit =>
                      bind label (fun l =>
                        modify (set_input_value (num := num) l))))))
    by frame.
  apply Hp. destruct w. autounfold with frame in *. cbn in *. tauto.
Qed.

Lemma blur_inactive k :
  leads (synchronous k) (sync_inactive k) (on_input_blur_handler (num := num)).
Proof.
  unfold on_input_blur_handler.
  apply (leads_bind _ (sync_inactive k)); [apply reset_inactive | done |].
  intros _. change (preserves (sync_inactive k) (close_dropdown (num := num))).
  frame.
Qed.

Lemma li_inactive k it :
  leads (synchronous k) (sync_inactive k) (on_li_click_handler (num := num) it).
Proof.
  intros w H. unfold on_li_click_handler.
  erewrite bind_ok by reflexivity. unfold set_item_ at 1.
  erewrite bind_ok by reflexivity.
  match goal with
  | |- _ (state_of (bind reset ?k0 ?w0)) =>
      apply (leads_bind (synchronous k) (sync_inactive k) (sync_inactive k)
               reset k0)
  end.
  - apply reset_inactive.
  - done.
  - intros _.
    change (preserves (sync_inactive k)
              (bind close_dropdown (fun _ : unit =>
                 bind (get item) (fun now =>
                   if strict_eq now (item w) then ret tt
                   else emit_select_change (num := num))))).
    frame.
  - destruct w. autounfold with frame in *. cbn in *. tauto.
Qed.

Lemma await_refresh_sync_open k value c :
  preserves (sync_open k) (await_refresh add toLowerCase value c).
Proof.
  intros w H. unfold await_refresh. erewrite bind_ok by reflexivity.
  assert (Hk : kind w <> DynamicTypeahead)
    by (destruct H as [(-> & ? & _) _]; done).
  destruct (kind w); [| |done];
    match goal with
    | |- sync_open k (state_of (?m w)) =>
        let Hp := fresh in
        assert (preserves (sync_open k) m) as Hp by (destruct c; frame);
        by apply Hp
    end.
Qed.

Lemma await_refresh_input_safe k value value' :
  preserves (sync_safe k)
    (await_refresh add toLowerCase value (AfterInput value')).
Proof.
  intros w H. unfold await_refresh. erewrite bind_ok by reflexivity.
  assert (Hk : kind w <> DynamicTypeahead)
    by (destruct H as [(-> & ? & _) _]; done).
  assert (Hl : leads (sync_safe k) (sync_safe k)
                 (bind (Select_refresh toLowerCase value)
                    (fun its => resume add (AfterInput value') its))).
  { apply (leads_bind _ (sync_safe k));
      [change (preserves (sync_safe k) (Select_refresh (num := num) toLowerCase value));
       frame | done |].
    intros its x Hx. cbv beta iota delta [resume]. unfold set_active_ at 1.
    erewrite bind_ok by reflexivity.
    apply sync_inactive_safe.
    match goal with
    | |- sync_inactive k (state_of (?m ?w0)) =>
        let Hp := fresh in
        assert (preserves (sync_inactive k) m) as Hp by frame;
        apply Hp
    end.
    destruct x. autounfold with frame in *. cbn in *. tauto. }
  destruct (kind w); [| |done]; by apply Hl.
Qed.

#[local] Hint Resolve await_refresh_sync_open await_refresh_input_safe : frame.

Ltac frame_keeping_await :=
  unfold dispatch, delayed, debounced, on_input_click_handler,
    Select_on_input_click_handler, Typeahead_on_input_click_handler,
    on_input_input_handler, set_store_, select_index, label, empty,
    open_dropdown, update_dropdown_position, close_dropdown,
    call_fn_label, set_item_, set_active_, get_next, get_prev, scroll_to,
    deref, array;
  repeat frame_step.

Lemma click_safe k :
  leads (sync_safe k) (sync_safe k) (on_input_click_handler add toLowerCase).
Proof.
  intros w H. unfold on_input_click_handler. erewrite bind_ok by reflexivity.
  assert (Hopen : is_open w = true ->
            sync_safe k (state_of (bind reset (fun _ : unit => close_dropdown) w))).
  { intros _. apply sync_inactive_safe.
    apply (blur_inactive k w). by apply sync_safe_sync. }
  destruct (kind w);
    [ unfold Select_on_input_click_handler
    | unfold Typeahead_on_input_click_handler
    | unfold Typeahead_on_input_click_handler ];
    erewrite bind_ok by reflexivity;
    (destruct (is_open w) eqn:Ho; [by apply Hopen|]);
    erewrite bind_ok by reflexivity;
    apply sync_open_safe;
    match goal with
    | |- sync_open k (state_of (?m ?w0)) =>
        let Hp := fresh in
        assert (preserves (sync_open k) m) as Hp by frame_keeping_await;
        apply Hp
    end;
    destruct w; autounfold with frame in *; cbn in *; tauto.
Qed.

Lemma key_safe k keyCode shiftKey :
  leads (sync_safe k) (sync_safe k)
    (on_input_key_down_handler add toLowerCase keyCode shiftKey).
Proof.
  intros w H. unfold on_input_key_down_handler.
  assert (Hs : synchronous k w) by (by apply sync_safe_sync).
  assert (Hc : cycle_when_closed w = true) by (by destruct Hs as (_ & _ & ? & _)).
  destruct (shiftKey && (keyCode =? 38)); [done|].
  destruct ((keyCode =? 40) || (keyCode =? 38)).
  - erewrite bind_ok by reflexivity. erewrite bind_ok by reflexivity.
    rewrite Hc. destruct (is_open w) eqn:Ho; cbn [negb andb].
    + apply sync_open_safe.
      match goal with
      | |- sync_open k (state_of (?m ?w0)) =>
          let Hp := fresh in
          assert (preserves (sync_open k) m) as Hp by frame;
          apply Hp
      end.
      by split.
    + erewrite bind_ok by reflexivity.
      destruct (store w) as [st|]; [|done].
      erewrite bind_ok by reflexivity. erewrite bind_ok by reflexivity.
      match goal with
      | |- context [bind ?m ?k0 w] =>
          assert (exists nxt, m w = Ok nxt w) as [nxt Hn]
            by (destruct (item w); [eexists; reflexivity..|];
                destruct (keyCode =? 40); eexists; reflexivity);
          rewrite (bind_ok m k0 w nxt w Hn)
      end.
      apply sync_inactive_safe. by apply li_inactive.
  - destruct (keyCode =? 13).
    + erewrite bind_ok by reflexivity.
      destruct (is_open w) eqn:Ho; cbn [negb].
      * erewrite bind_ok by reflexivity.
        destruct (truthy (active w)).
        -- apply sync_inactive_safe. by apply li_inactive.
        -- erewrite bind_ok by reflexivity.
           destruct (items w) as [its|]; [|done].
           erewrite bind_ok by reflexivity.
           destruct (0 <? length its); [|done].
           apply sync_inactive_safe. by apply li_inactive.
      * by apply (click_safe k w).
    + destruct (keyCode =? 27); [|done].
      apply sync_inactive_safe. by apply blur_inactive.
Qed.

Lemma dispatch_safe k ev :
  leads (sync_safe k) (sync_safe k) (dispatch add toLowerCase ev).
Proof.
  intros w H.
  assert (Hs : synchronous k w) by (by apply sync_safe_sync).
  destruct ev as [|keyCode shiftKey| |e|v|text| |i rs|i|value].
  - by apply (click_safe k w).
  - by apply key_safe.
  - apply sync_inactive_safe. by apply blur_inactive.
  - apply sync_inactive_safe. by apply li_inactive.
  - by_frame.
  - by_frame.
  - match goal with
    | |- sync_safe k (state_of (?m ?w0)) =>
        let Hp := fresh in
        assert (preserves (sync_safe k) m) as Hp by frame_keeping_await;
        by apply Hp
    end.
  - unfold dispatch, take_pending.
    erewrite bind_ok by (erewrite bind_ok by reflexivity;
                         erewrite bind_ok by reflexivity; reflexivity).
    destruct Hs as (Hk & Hd & Hc & Hp). rewrite Hp. cbn.
    destruct w. autounfold with frame in *. cbn in *. subst. tauto.
  - unfold dispatch, take_pending.
    erewrite bind_ok by (erewrite bind_ok by reflexivity;
                         erewrite bind_ok by reflexivity; reflexivity).
    destruct Hs as (Hk & Hd & Hc & Hp). rewrite Hp. cbn.
    destruct w. autounfold with frame in *. cbn in *. subst. tauto.
  - by_frame.
Qed.

(** X12: in a plain selector and in a typeahead, every state reached
    from initialisation by any sequence of events (clicks, keys, focus
    loss, presses on entries, resizes, keystrokes, debounced refreshes,
    store assignments) satisfies: when [is_open] is false, no entry is
    active. *)
Theorem closed_selector_has_no_active_entry k w :
  k = Select \/ k = Typeahead ->
  reachable add toLowerCase k w ->
  is_open w = false -> nullish (active w).
Proof.
  intros Hk Hreach.
  assert (Hsafe : sync_safe k w).
  { induction Hreach as [v|w ev Hreach IH].
    - destruct Hk as [-> | ->]; autounfold with frame; cbn; repeat split; done.
    - by apply dispatch_safe. }
  by destruct Hsafe as [_ H].
Qed.

(** *** Debounced keystrokes *)

Lemma keystrokes_end_state w texts text :
  kind w <> Select ->
  run add toLowerCase w (Keystroke <$> texts ++ [text]) =
    set_timer true (set_input_value text w).
Proof.
  intros Hk.
  assert (Hs : forall (x : widget (num := num)) t, kind x <> Select ->
            step add toLowerCase x (Keystroke t) =
              set_timer true (set_input_value t x)).
  { intros x t Hx. unfold step, dispatch. erewrite bind_ok by reflexivity.
    by destruct (kind x). }
  revert w Hk. induction texts as [|t texts IH]; intros w Hk.
  - cbn [fmap list_fmap app run fold_left]. by apply Hs.
  - cbn [fmap list_fmap app run fold_left]. rewrite (Hs w t Hk).
    change (run add toLowerCase (set_timer true (set_input_value t w))
              (Keystroke <$> texts ++ [text]) =
            set_timer true (set_input_value text w)).
    rewrite IH by (by destruct w). by destruct w.
Qed.

(** X13: the debounce of the input handler has a single slot.  In a
    typeahead or dynamic typeahead, any burst of keystrokes followed by
    the end of the quiet period runs the input handler exactly once, on
    the text of the last keystroke; a further timeout without a new
    keystroke does nothing. *)
Theorem keystrokes_are_coalesced w texts text :
  kind w <> Select ->
  let fired :=
    run add toLowerCase w ((Keystroke <$> texts ++ [text]) ++ [QuietPeriodOver]) in
  fired =
    set_timer false
      (state_of (on_input_input_handler add toLowerCase text
                   (set_timer true (set_input_value text w)))) /\
  step add toLowerCase fired QuietPeriodOver = fired.
Proof.
  intros Hk fired.
  assert (Hf : fired =
    set_timer false
      (state_of (on_input_input_handler add toLowerCase text
                   (set_timer true (set_input_value text w))))).
  { subst fired. rewrite run_app, (keystrokes_end_state w texts text Hk).
    cbn [run fold_left]. unfold step, dispatch, delayed.
    erewrite bind_ok by reflexivity. cbn [timer set_timer].
    erewrite bind_ok by reflexivity. cbn [input_value set_timer set_input_value].
    unfold async_call at 1. erewrite bind_ok by reflexivity. reflexivity. }
  split; [exact Hf|].
  rewrite Hf. unfold step, dispatch, delayed.
  erewrite bind_ok by reflexivity. cbn [timer set_timer]. reflexivity.
Qed.

(** *** Answers of [store_fn] to a keystroke query *)

Lemma settle_input_state w f g value rs :
  fn_label w = Some f -> fn_node w = Some g ->
  let st := new_entries f g (auto_id w) rs in
  settle add (AfterInput value) rs w =
    (if length rs =? 0 then close_dropdown else open_dropdown add)
      (Widget (kind w) (fn_label w) (fn_node w) (cycle_when_closed w)
         (min_characters w) (handle_min_characters w) (Some st) (Some st)
         (item w) Null (is_open w) (input_value w) (attached w)
         (resize_listening w) (placement w) (win w)
         (fill_links st (fresh_links st (heap w)))
         (length rs + auto_id w) (emitted w) (pending w) (timer w)).
Proof.
  intros Hf Hg st. subst st. unfold settle.
  erewrite bind_ok by (by apply make_store_nodes_ok).
  erewrite bind_ok by reflexivity.
  cbv beta iota delta [resume].
  erewrite bind_ok by reflexivity.
  erewrite bind_ok by (apply (fill_ok _ f); by destruct w).
  erewrite bind_ok by reflexivity.
  erewrite bind_ok by reflexivity.
  rewrite new_entries_length. by destruct w.
Qed.

(** X14: when [store_fn] answers a keystroke query of a widget that has
    both derivation functions, the answer replaces the store and the
    visible set by freshly built entries for its records, in order and
    linked as one ring; no entry is active afterwards; the overlay is
    attached exactly when the answer is not empty; the open flag, the
    selection and the notifications are as before, and the query is no
    longer pending. *)
Theorem answer_rebuilds_store_and_visible_set w f g k value rs :
  fn_label w = Some f ->
  fn_node w = Some g ->
  pending w !! k = Some (AfterInput value) ->
  let w' := step add toLowerCase w (Fulfilled k rs) in
  exists st,
    data <$> st = rs /\
    eid <$> st = seq (S (auto_id w)) (length rs) /\
    store w' = Some st /\ items w' = Some st /\
    ring_over (heap w') st /\
    active w' = Null /\
    attached w' = negb (Nat.eqb (length rs) 0) /\
    is_open w' = is_open w /\ item w' = item w /\
    emitted w' = emitted w /\
    pending w' = delete k (pending w).
Proof.
  intros Hf Hg Hk w'. subst w'. rewrite (step_fulfilled w k _ rs Hk).
  rewrite (settle_input_state _ f g value rs) by (by destruct w).
  exists (new_entries f g (auto_id w) rs).
  split; [apply new_entries_data|]. split; [apply new_entries_eid|].
  assert (Hring : ring_over
            (fill_links (new_entries f g (auto_id w) rs)
               (fresh_links (new_entries f g (auto_id w) rs) (heap w)))
            (new_entries f g (auto_id w) rs))
    by apply fill_links_ring, new_entries_NoDup.
  destruct w. cbn [auto_id set_pending heap] in *.
  destruct is_open0; destruct (length rs =? 0);
    unfold close_dropdown, open_dropdown, update_dropdown_position; wsimpl;
    (split; [reflexivity|]); (split; [reflexivity|]);
    (split; [exact Hring|]); repeat split; done.
Qed.

(** *** Clicking a closed typeahead *)

Lemma Select_refresh_empty_query w f st :
  store w = Some st -> fn_label w = Some f -> toLowerCase [] = [] ->
  Select_refresh toLowerCase [] w = Ok st w.
Proof.
  intros Hs Hf He. rewrite (Select_refresh_ok w f st [] Hs Hf).
  f_equal. rewrite He. clear.
  induction st as [|e st IH]; [reflexivity|].
  cbn [List.filter]. rewrite IH. by destruct (toLowerCase (f (data e))).
Qed.

(** X15: a click on a closed typeahead that has a selection ignores the
    typed text: unless the minimum-length gate suppresses the click, it
    shows the whole store, marks the widget open, attaches the overlay
    and highlights the selected entry; the input text, the selection
    and the notifications stay as they were. *)
Theorem typeahead_click_with_selection_shows_store w f st e :
  kind w = Typeahead ->
  is_open w = false ->
  store w = Some st ->
  st <> [] ->
  fn_label w = Some f ->
  toLowerCase [] = [] ->
  item w = Obj e ->
  below_min (input_value w) w && negb (handle_min_characters w) = false ->
  exists w',
    on_input_click_handler add toLowerCase w = Ok tt w' /\
    is_open w' = true /\ items w' = Some st /\ active w' = Obj e /\
    attached w' = true /\ resize_listening w' = true /\
    input_value w' = input_value w /\ item w' = item w /\
    emitted w' = emitted w.
Proof.
  intros Hk Ho Hs Hne Hf Hlow Hi Hgate.
  unfold on_input_click_handler.
  erewrite bind_ok by reflexivity. rewrite Hk.
  unfold Typeahead_on_input_click_handler.
  erewrite bind_ok by reflexivity. rewrite Ho.
  erewrite bind_ok by reflexivity. erewrite bind_ok by reflexivity.
  erewrite bind_ok by reflexivity. erewrite bind_ok by reflexivity.
  replace (below_min (input_value (set_is_open true w)) (set_is_open true w))
    with (below_min (input_value w) w) by (unfold below_min; by destruct w).
  replace (handle_min_characters (set_is_open true w))
    with (handle_min_characters w) by (by destruct w).
  rewrite Hgate.
  erewrite bind_ok by reflexivity.
  replace (item (set_is_open true w)) with (Obj e) by (rewrite <- Hi; by destruct w).
  cbn [truthy]. unfold await_refresh.
  erewrite bind_ok by reflexivity.
  replace (kind (set_is_open true w)) with Typeahead
    by (rewrite <- Hk; by destruct w).
  erewrite bind_ok by (apply (Select_refresh_empty_query _ f st);
                       done || by destruct w).
  cbv beta iota delta [resume].
  replace (length st =? 0) with false
    by (symmetry; apply Nat.eqb_neq; destruct st; [done | cbn; lia]).
  erewrite bind_ok by (apply (fill_ok _ f); by destruct w).
  destruct w. cbn in Hi, Ho. subst.
  unfold open_dropdown, update_dropdown_position, set_active_, scroll_to, deref.
  wsimpl. eexists. split; [reflexivity|]. repeat split; reflexivity.
Qed.

(** X16: a click on a closed typeahead without a selection whose typed
    text matches no entry marks the widget open and shows nothing: it
    returns normally and only sets [is_open]; the overlay, the visible
    set, the input and the active entry are untouched, so the next
    click dismisses instead of opening. *)
Theorem typeahead_click_without_match_only_marks_open w f st :
  kind w = Typeahead ->
  is_open w = false ->
  store w = Some st ->
  fn_label w = Some f ->
  nullish (item w) ->
  below_min (input_value w) w && negb (handle_min_characters w) = false ->
  (forall e, e ∈ st -> ~ contains_ci toLowerCase (f (data e)) (input_value w)) ->
  on_input_click_handler add toLowerCase w = Ok tt (set_is_open true w) /\
  exists w',
    on_input_click_handler add toLowerCase (set_is_open true w) = Ok tt w' /\
    is_open w' = false.
Proof.
  intros Hk Ho Hs Hf Hi Hgate Hnone.
  assert (Hfil : List.filter
            (fun e => includes (toLowerCase (f (data e)))
                        (toLowerCase (input_value w))) st = []).
  { clear Hs. induction st as [|e st IH]; [reflexivity|].
    cbn [List.filter]. destruct (includes _ _) eqn:E.
    - exfalso. apply (Hnone e); [apply elem_of_cons; by left|].
      by apply includes_spec.
    - apply IH. intros e' He'. apply Hnone. apply elem_of_cons. by right. }
  split.
  - unfold on_input_click_handler.
    erewrite bind_ok by reflexivity. rewrite Hk.
    unfold Typeahead_on_input_click_handler.
    erewrite bind_ok by reflexivity. rewrite Ho.
    erewrite bind_ok by reflexivity. erewrite bind_ok by reflexivity.
    erewrite bind_ok by reflexivity. erewrite bind_ok by reflexivity.
    replace (below_min (input_value (set_is_open true w)) (set_is_open true w))
      with (below_min (input_value w) w) by (unfold below_min; by destruct w).
    replace (handle_min_characters (set_is_open true w))
      with (handle_min_characters w) by (by destruct w).
    rewrite Hgate.
    erewrite bind_ok by reflexivity.
    replace (truthy (item (set_is_open true w))) with false
      by (unfold nullish in Hi; rewrite <- Hi; by destruct w).
    unfold await_refresh.
    erewrite bind_ok by reflexivity.
    replace (kind (set_is_open true w)) with Typeahead
      by (rewrite <- Hk; by destruct w).
    erewrite bind_ok by (apply (Select_refresh_ok _ f st); by destruct w).
    replace (input_value (set_is_open true w)) with (input_value w)
      by (by destruct w).
    rewrite Hfil. cbv beta iota delta [resume]. cbn [length Nat.eqb].
    unfold modify. by destruct w.
  - unfold on_input_click_handler.
    erewrite bind_ok by reflexivity.
    replace (kind (set_is_open true w)) with Typeahead
      by (rewrite <- Hk; by destruct w).
    unfold Typeahead_on_input_click_handler.
    erewrite bind_ok by reflexivity. cbn [is_open set_is_open].
    erewrite bind_ok by (apply (reset_ok _ f); by destruct w).
    eexists. split; [reflexivity|]. by destruct w.
Qed.

End Properties.

(** ** The properties on the sample data *)

(** C1, the claim as stated fails: "abc" then "abcd" are asked; the
    answer [B] to "abcd" arrives first and the answer [A] to "abc"
    arrives after it; the visible set ends as [A], not as [B]. *)
Lemma stale_answer_replaces_visible_set :
  visible_records
    (Sample.exec Sample.dynamic_two_asked
       [Fulfilled 1 [Sample.rB]; Fulfilled 0 [Sample.rA]]) = Some [Sample.rA] /\
  Some [Sample.rA] <> Some [Sample.rB].
Proof. split; [vm_compute; reflexivity | discriminate]. Qed.

Lemma answers_apply_in_arrival_order_witness :
  pending Sample.dynamic_two_asked =
    [AfterInput Sample.abc; AfterInput Sample.abcd] /\
  visible_records
    (Sample.exec Sample.dynamic_two_asked
       [Fulfilled 1 [Sample.rB]; Fulfilled 0 [Sample.rA]]) = Some [Sample.rA] /\
  visible_records
    (Sample.exec Sample.dynamic_two_asked
       [Fulfilled 0 [Sample.rA]; Fulfilled 0 [Sample.rB]]) = Some [Sample.rB].
Proof.
  apply (answers_apply_in_arrival_order Z.add Sample.ascii_lower
           (Sample.new_widget DynamicTypeahead) default_fn_label DefaultNode
           Sample.abc Sample.abcd [Sample.rA] [Sample.rB]);
    reflexivity.
Defined.

(** C2, the claim as stated fails: with [A, B] visible, the dropdown
    open and no active entry, two presses of ArrowDown leave [B]
    active, not the first entry [A]. *)
Lemma two_presses_end_on_second_entry :
  items Sample.typeahead_AB_open = Some [Sample.eA; Sample.eB] /\
  is_open Sample.typeahead_AB_open = true /\
  active Sample.typeahead_AB_open = Null /\
  active (Sample.exec Sample.typeahead_AB_open
            (replicate 2 (KeyDown ArrowDown false))) = Obj Sample.eB /\
  Obj Sample.eB <> index [Sample.eA; Sample.eB] 0.
Proof. repeat split; try (vm_compute; reflexivity). discriminate. Qed.

Lemma fill_links_one_ring_arrow_down_wraps_witness :
  exists w',
    fill [Sample.eA; Sample.eB] []
      (set_is_open true (Sample.new_widget Typeahead)) = Ok tt w' /\
    items w' = Some [Sample.eA; Sample.eB] /\
    ring_over (heap w') [Sample.eA; Sample.eB] /\
    one_cycle (heap w') [Sample.eA; Sample.eB] /\
    active (Sample.exec w' (replicate 2 (KeyDown ArrowDown false))) =
      Obj Sample.eB /\
    active (Sample.exec w' (replicate 3 (KeyDown ArrowDown false))) =
      Obj Sample.eA.
Proof.
  apply (fill_links_one_ring_arrow_down_wraps Z.add Sample.ascii_lower
           (set_is_open true (Sample.new_widget Typeahead)) default_fn_label
           [Sample.eA; Sample.eB] []);
    try reflexivity.
  - discriminate.
  - apply (bool_decide_unpack _). vm_compute. exact I.
Defined.

Lemma local_refresh_is_the_case_insensitive_filter_witness :
  exists res,
    Select_refresh Sample.ascii_lower [66; 67]%N Sample.select_AB_open =
      Ok res Sample.select_AB_open /\
    sublist res [Sample.eA; Sample.eB] /\
    (forall e, e ∈ res <->
       e ∈ [Sample.eA; Sample.eB] /\
       contains_ci Sample.ascii_lower (default_fn_label (data e)) [66; 67]%N) /\
    (forall dec : forall e,
         Decision (contains_ci Sample.ascii_lower (default_fn_label (data e))
                     [66; 67]%N),
       res = @filter _ _ _
               (fun e => contains_ci Sample.ascii_lower
                           (default_fn_label (data e)) [66; 67]%N)
               dec [Sample.eA; Sample.eB]) /\
    Select_refresh Sample.ascii_lower [] Sample.select_AB_open =
      Ok [Sample.eA; Sample.eB] Sample.select_AB_open.
Proof.
  apply (local_refresh_is_the_case_insensitive_filter Sample.ascii_lower
           Sample.select_AB_open default_fn_label [Sample.eA; Sample.eB]
           [66; 67]%N);
    reflexivity.
Defined.

Lemma commit_notifies_once_iff_changed_witness :
  exists w',
    on_li_click_handler (Obj Sample.eB) Sample.select_AB_open = Ok tt w' /\
    item w' = Obj Sample.eB /\
    (strict_eq (Obj Sample.eB) (item Sample.select_AB_open) = true ->
       emitted w' = emitted Sample.select_AB_open) /\
    (strict_eq (Obj Sample.eB) (item Sample.select_AB_open) = false ->
       emitted w' = emitted Sample.select_AB_open ++ [data Sample.eB]) /\
    dispatch Z.add Sample.ascii_lower (MouseDown Sample.eB) Sample.select_AB_open =
      on_li_click_handler (Obj Sample.eB) Sample.select_AB_open /\
    (forall shiftKey,
       is_open Sample.select_AB_open = true ->
       active Sample.select_AB_open = Obj Sample.eB \/
         (nullish (active Sample.select_AB_open) /\
          exists its, items Sample.select_AB_open = Some (Sample.eB :: its)) ->
       on_input_key_down_handler Z.add Sample.ascii_lower Enter shiftKey
         Sample.select_AB_open =
         on_li_click_handler (Obj Sample.eB) Sample.select_AB_open).
Proof.
  apply (commit_notifies_once_iff_changed Z.add Sample.ascii_lower
           Sample.select_AB_open default_fn_label Sample.eB).
  reflexivity.
Defined.

Lemma short_input_is_suppressed_witness :
  on_input_input_handler Z.add Sample.ascii_lower [97; 98]%N
    (Sample.new_widget DynamicTypeahead) =
    Ok tt (Sample.new_widget DynamicTypeahead) /\
  (kind (Sample.new_widget DynamicTypeahead) <> Select ->
   items (Sample.exec (Sample.new_widget DynamicTypeahead)
            [Keystroke [97; 98]%N; QuietPeriodOver]) =
     items (Sample.new_widget DynamicTypeahead)).
Proof.
  apply (short_input_is_suppressed Z.add Sample.ascii_lower
           (Sample.new_widget DynamicTypeahead) [97; 98]%N 3);
    [reflexivity | reflexivity | cbn; lia].
Defined.

(** C7, the claim as stated fails: the plain selector over [A, B] is
    open and placed for the first viewport; after a resize to the second
    viewport the overlay is detached and its placement is still the one
    of the first viewport, not top = 90 + 35, left = 10, width = 160. *)
Lemma resize_closes_without_placing :
  is_open Sample.select_AB_open = true /\
  placement Sample.select_AB_open = Some (Style 155 10 200)%Z /\
  placement (Sample.exec Sample.select_AB_open [Resize Sample.v1]) =
    Some (Style 155 10 200)%Z /\
  attached (Sample.exec Sample.select_AB_open [Resize Sample.v1]) = false /\
  Some (Style 155 10 200)%Z <>
    Some (Style (rect_bottom Sample.v1 + scrollY Sample.v1)
                (rect_left Sample.v1 + scrollX Sample.v1)
                (rect_width Sample.v1))%Z.
Proof. repeat split; try (vm_compute; reflexivity). discriminate. Qed.

Lemma overlay_placed_on_open_closed_on_resize_witness :
  let w := set_is_open true (Sample.new_widget Select) in
  let opened := state_of (open_dropdown Z.add w) in
  let placed := Some (Style 155 10 200)%Z in
  open_dropdown Z.add w = Ok tt opened /\
  overlay true true placed opened /\
  overlay false false placed
    (step Z.add Sample.ascii_lower opened (Resize Sample.v1)) /\
  win (step Z.add Sample.ascii_lower opened (Resize Sample.v1)) = Sample.v1 /\
  overlay false false placed (state_of (close_dropdown opened)) /\
  (forall w0 : widget (num := Z),
     kind w0 = Select -> is_open w0 = false -> win w0 = win w ->
     overlay true true placed (step Z.add Sample.ascii_lower w0 Click)).
Proof.
  apply (overlay_placed_on_open_closed_on_resize Z.add Sample.ascii_lower
           (set_is_open true (Sample.new_widget Select)) Sample.v1).
  reflexivity.
Defined.

(** C9, the claim as stated fails: a plain selector constructed without
    any derivation function initialises without an error. *)
Lemma initialize_without_functions_succeeds :
  fn_label (construct Select Sample.v0) = None /\
  fn_node (construct Select Sample.v0) = None /\
  initialize (construct Select Sample.v0) = Ok tt (Sample.new_widget Select) /\
  ~ (exists w, initialize (construct Select Sample.v0) = TypeError w).
Proof.
  repeat split. intros [w H]. discriminate H.
Qed.

Lemma enter_opens_or_commits_first_witness :
  (is_open (Sample.new_widget Select) = false ->
     let w' := state_of (on_input_key_down_handler Z.add Sample.ascii_lower
                           Enter false (Sample.new_widget Select)) in
     is_open w' = true /\ item w' = item (Sample.new_widget Select) /\
     emitted w' = emitted (Sample.new_widget Select) /\
     (kind (Sample.new_widget Select) = Select -> attached w' = true)) /\
  (forall e its,
     is_open (Sample.new_widget Select) = true ->
     nullish (active (Sample.new_widget Select)) ->
     items (Sample.new_widget Select) = Some (e :: its) ->
     exists w',
       on_input_key_down_handler Z.add Sample.ascii_lower Enter false
         (Sample.new_widget Select) = Ok tt w' /\
       item w' = Obj e /\ is_open w' = false /\ active w' = Null /\
       emitted w' =
         (if strict_eq (Obj e) (item (Sample.new_widget Select))
          then emitted (Sample.new_widget Select)
          else emitted (Sample.new_widget Select) ++ [data e])).
Proof.
  apply (enter_opens_or_commits_first Z.add Sample.ascii_lower
           (Sample.new_widget Select) default_fn_label false).
  reflexivity.
Defined.

(** C5, where the code departs from it: in a dynamic typeahead, "abc"
    is typed, the answer [A, B] arrives (the overlay is shown, but
    [is_open] is left false) and ArrowDown is pressed; the state is
    reachable, [is_open] is false and [A] is active. *)
Theorem highlight_while_closed_after_keystroke_refresh :
  reachable Z.add Sample.ascii_lower DynamicTypeahead Sample.dynamic_AB_arrow /\
  is_open Sample.dynamic_AB_arrow = false /\
  attached Sample.dynamic_AB_arrow = true /\
  active Sample.dynamic_AB_arrow = Obj Sample.eA.
Proof.
  split.
  - unfold Sample.dynamic_AB_arrow, Sample.exec, run, fold_left.
    repeat apply reachable_step. apply reachable_init.
  - repeat split; vm_compute; reflexivity.
Qed.

(** C8, where the code departs from it: a plain selector (cycling
    enabled) with an empty store is opened by a click; the state is
    reachable, the dropdown is open and the visible set is empty; an
    ArrowDown or ArrowUp then stores [undefined] as the active entry and
    throws on reading its [data]. *)
Theorem arrow_on_empty_open_list_throws :
  reachable Z.add Sample.ascii_lower Select Sample.select_empty_open /\
  is_open Sample.select_empty_open = true /\
  items Sample.select_empty_open = Some [] /\
  cycle_when_closed Sample.select_empty_open = true /\
  active Sample.select_empty_open = Null /\
  on_input_key_down_handler Z.add Sample.ascii_lower ArrowDown false
    Sample.select_empty_open =
    TypeError (set_active Undefined Sample.select_empty_open) /\
  on_input_key_down_handler Z.add Sample.ascii_lower ArrowUp false
    Sample.select_empty_open =
    TypeError (set_active Undefined Sample.select_empty_open).
Proof.
  split.
  - unfold Sample.select_empty_open, Sample.exec, run, fold_left.
    repeat apply reachable_step. apply reachable_init.
  - repeat split; vm_compute; reflexivity.
Qed.

(** ** Class names *)

Section ClassNames.

Import Dom.

Lemma split_nonempty s : split s <> [].
Proof.
  destruct s as [|c s]; cbn; [done|].
  destruct (N.eqb c space); [done|]. by destruct (split s).
Qed.

Lemma split_spaceless s : Forall spaceless (split s).
Proof.
  induction s as [|c s IH]; cbn.
  - constructor; [|constructor]. unfold spaceless. apply not_elem_of_nil.
  - destruct (N.eqb_spec c space) as [->|Hne].
    + constructor; [|done]. unfold spaceless. apply not_elem_of_nil.
    + destruct (split s) as [|piece pieces]; [|].
      * constructor; [|constructor]. unfold spaceless.
        intros [H|H]%elem_of_cons; [congruence | by apply not_elem_of_nil in H].
      * inversion IH as [|? ? Hp Hps]; subst. constructor; [|done].
        unfold spaceless in *. intros [H|H]%elem_of_cons; [congruence | done].
Qed.

Lemma join_split s : join (split s) = s.
Proof.
  induction s as [|c s IH]; [reflexivity|]. cbn [split].
  pose proof (split_nonempty s) as Hn.
  destruct (split s) as [|piece pieces] eqn:E; [done|].
  destruct (N.eqb_spec c space) as [->|Hne].
  - change (join ([] :: piece :: pieces))
      with ([] ++ space :: join (piece :: pieces)).
    by rewrite IH.
  - destruct pieces as [|piece' pieces].
    + cbn [join] in *. by rewrite IH.
    + change (join ((c :: piece) :: piece' :: pieces))
        with (c :: (piece ++ space :: join (piece' :: pieces))).
      change (join (piece :: piece' :: pieces))
        with (piece ++ space :: join (piece' :: pieces)) in IH.
      by rewrite IH.
Qed.

Lemma split_join a :
  a <> [] -> Forall spaceless a -> split (join a) = a.
Proof.
  intros Hne Hall. induction Hall as [|piece rest Hp Hrest IH]; [done|].
  clear Hne.
  assert (Hpiece : forall tail, split (piece ++ space :: tail) = piece :: split tail).
  { intros tail. clear IH Hrest. induction piece as [|c piece IHp].
    - reflexivity.
    - cbn [app split].
      assert (c <> space) by (intros ->; apply Hp, elem_of_cons; by left).
      destruct (N.eqb_spec c space); [done|].
      rewrite IHp; [done|].
      intros Hin. apply Hp, elem_of_cons. by right. }
  destruct rest as [|piece' rest].
  - cbn [join]. clear IH Hrest Hpiece. induction piece as [|c piece IHp]; [done|].
    cbn [split].
    assert (c <> space) by (intros ->; apply Hp, elem_of_cons; by left).
    destruct (N.eqb_spec c space); [done|].
    rewrite IHp; [done|].
    intros Hin. apply Hp, elem_of_cons. by right.
  - change (join (piece :: piece' :: rest))
      with (piece ++ space :: join (piece' :: rest)).
    rewrite Hpiece, IH; done.
Qed.

Lemma spaced_join a : a <> [] -> space :: join a = spaced a.
Proof.
  induction a as [|piece rest IH]; [done|]. intros _.
  destruct rest as [|piece' rest].
  - cbn. by rewrite app_nil_r.
  - change (join (piece :: piece' :: rest))
      with (piece ++ space :: join (piece' :: rest)).
    change (spaced (piece :: piece' :: rest))
      with ((space :: piece) ++ spaced (piece' :: rest)).
    by rewrite <- IH.
Qed.

Lemma spaceless_prefix t x pre z :
  spaceless t -> t ++ space :: x = pre ++ space :: z ->
  exists pre', pre = t ++ pre'.
Proof.
  intros Ht. revert pre. induction t as [|c t IH]; intros pre H.
  - by exists pre.
  - assert (c <> space) by (intros ->; apply Ht, elem_of_cons; by left).
    destruct pre as [|c' pre]; cbn in H; [congruence|].
    injection H as -> H.
    destruct (IH (fun Hin => Ht (proj2 (elem_of_cons _ _ _) (or_intror Hin))) pre H)
      as [pre' ->].
    by exists pre'.
Qed.

Lemma spaceless_same t x d y :
  spaceless t -> spaceless d -> t ++ space :: x = d ++ space :: y -> t = d.
Proof.
  intros Ht Hd H.
  destruct (spaceless_prefix t x d y Ht H) as [p Hp].
  destruct (spaceless_prefix d y t x Hd (eq_sym H)) as [q Hq].
  rewrite Hq in Hp. rewrite <- app_assoc in Hp.
  assert (q ++ p = []) as Hnil.
  { apply (app_inv_head d). by rewrite app_nil_r. }
  apply app_eq_nil in Hnil as [-> _]. by rewrite app_nil_r in Hq.
Qed.

Lemma spaced_starts a : exists x, spaced a ++ [space] = space :: x.
Proof. destruct a; cbn; eauto. Qed.

Lemma spaced_member a d :
  Forall spaceless a -> spaceless d ->
  (exists pre post, spaced a ++ [space] = pre ++ (space :: d ++ [space]) ++ post) ->
  d ∈ a.
Proof.
  intros Hall Hd. induction Hall as [|t rest Ht Hrest IH];
    intros (pre & post & H).
  - cbn in H. destruct pre as [|? pre]; cbn in H.
    + injection H as H. by destruct d.
    + injection H as _ H. by destruct pre.
  - destruct (spaced_starts rest) as [x Hx].
    assert (HL : spaced (t :: rest) ++ [space] = space :: t ++ space :: x).
    { change (spaced (t :: rest)) with ((space :: t) ++ spaced rest).
      by rewrite <- app_assoc, Hx. }
    assert (HR : forall p, p ++ (space :: d ++ [space]) ++ post =
                           p ++ space :: d ++ space :: post).
    { intros p. cbn. by rewrite <- app_assoc. }
    rewrite HL, HR in H.
    destruct pre as [|p pre]; cbn [app] in H.
    + injection H as H. apply elem_of_cons. left. symmetry.
      by apply (spaceless_same t x d post).
    + injection H as Hp H. subst p.
      destruct (spaceless_prefix t x pre (d ++ space :: post) Ht H) as [pre' ->].
      rewrite <- app_assoc in H. apply app_inv_head in H.
      apply elem_of_cons. right. apply IH.
      exists pre', post. by rewrite Hx, HR.
Qed.

Lemma member_spaced a d :
  d ∈ a ->
  exists pre post, spaced a ++ [space] = pre ++ (space :: d ++ [space]) ++ post.
Proof.
  intros Hin. apply list_elem_of_split in Hin as (l1 & l2 & ->).
  destruct (spaced_starts l2) as [x Hx].
  exists (spaced l1), x.
  unfold spaced at 1. rewrite flat_map_app. cbn [flat_map].
  fold (spaced l1). fold (spaced l2).
  rewrite <- !app_assoc. cbn [app]. rewrite <- !app_assoc. cbn [app].
  by rewrite Hx.
Qed.

Lemma has_css_tokens a d :
  a <> [] -> Forall spaceless a -> spaceless d ->
  has_css (join a) d = true <-> d ∈ a.
Proof.
  intros Hne Hall Hd. unfold has_css. rewrite includes_spec.
  rewrite app_comm_cons, (spaced_join a Hne).
  split; [by apply spaced_member | by apply member_spaced].
Qed.

Lemma split_single c : spaceless c -> split c = [c].
Proof.
  intros Hc. rewrite <- (split_join [c]); [done | done |].
  constructor; [done | constructor].
Qed.

Lemma has_css_join a d :
  Forall spaceless a -> spaceless d -> d <> [] ->
  has_css (join a) d = true <-> d ∈ a.
Proof.
  intros Hall Hd Hne. destruct a as [|piece rest].
  - cbn [join]. rewrite <- (join_split []) at 1.
    rewrite has_css_tokens; [| apply split_nonempty | apply split_spaceless | done].
    cbn. rewrite list_elem_of_singleton.
    split; [done | by intros ?%not_elem_of_nil].
  - by apply has_css_tokens.
Qed.

Lemma added_tokens a c :
  a <> [] -> Forall spaceless a -> spaceless c ->
  let a' := if absent a c then a ++ [c] else a in
  a' <> [] /\ Forall spaceless a' /\ (forall d, d ∈ a' <-> d ∈ a \/ d = c).
Proof.
  intros Hne Hall Hc a'. subst a'. unfold absent.
  destruct (bool_decide (c ∈ a)) eqn:E; cbn [negb].
  - apply bool_decide_eq_true in E. repeat split; try done.
    + by left.
    + intros [H| ->]; done.
  - repeat split.
    + by destruct a.
    + apply Forall_app. split; [done|]. by constructor.
    + intros H. apply elem_of_app in H as [H|H]; [by left|].
      right. by apply list_elem_of_singleton in H.
    + intros [H| ->]; apply elem_of_app; [by left|].
      right. by apply list_elem_of_singleton.
Qed.

Lemma has_css_is_membership_aux className c :
  spaceless c ->
  (has_css className c = true <-> c ∈ split className) /\
  join (split className) = className.
Proof.
  intros Hc. split; [|apply join_split].
  rewrite <- (join_split className) at 1.
  apply has_css_tokens; [apply split_nonempty | apply split_spaceless | done].
Qed.

Lemma forallb_filter_id_aux {A} (p : A -> bool) (l : list A) :
  List.filter p l = l <-> forall x, x ∈ l -> p x = true.
Proof.
  induction l as [|x l IH]; cbn.
  - split; [intros _ y Hy; by apply not_elem_of_nil in Hy | done].
  - destruct (p x) eqn:E.
    + split.
      * intros H. injection H as H. intros y [->|Hy]%elem_of_cons; [done|].
        by apply IH.
      * intros H. f_equal. apply IH. intros y Hy. apply H, elem_of_cons. by right.
    + split.
      * intros H. exfalso.
        assert (Hlen : length (List.filter p l) <= length l) by apply filter_length_le.
        rewrite H in Hlen. cbn in Hlen. lia.
      * intros H. specialize (H x (proj2 (elem_of_cons _ _ _) (or_introl eq_refl))).
        congruence.
Qed.

(** X17: [has_css] tests membership among the space-separated pieces
    of the class name: for a class without a space in it, [has_css]
    answers true exactly when the class is one of the pieces that
    [split(" ")] gives; and joining those pieces gives the class name
    back. *)
Theorem has_css_is_membership className c :
  spaceless c ->
  (has_css className c = true <-> c ∈ split className) /\
  join (split className) = className.
Proof.
  apply has_css_is_membership_aux.
Qed.

(** X18: [add_css] with one class (no space in it).  Afterwards the
    element has the class; every other class is present exactly when it
    was before; a class name that already has the class is not changed,
    so adding twice is the same as adding once; on an empty class name
    the result is the class with a space before it. *)
Theorem add_css_adds_one_class className c :
  spaceless c ->
  has_css (add_css className c) c = true /\
  (forall d, spaceless d -> d <> c ->
     has_css (add_css className c) d = has_css className d) /\
  (has_css className c = true -> add_css className c = className) /\
  add_css (add_css className c) c = add_css className c /\
  (className = [] -> c <> [] -> add_css className c = space :: c).
Proof.
  intros Hc.
  assert (Hadd : forall cn,
            add_css cn c =
              join (if absent (split cn) c then split cn ++ [c] else split cn)).
  { intros cn. unfold add_css. by rewrite (split_single c Hc). }
  destruct (added_tokens (split className) c (split_nonempty _)
              (split_spaceless _) Hc) as (Hne & Hall & Hmem).
  set (a' := if absent (split className) c then split className ++ [c]
             else split className) in *.
  assert (Hcn : add_css className c = join a') by exact (Hadd className).
  assert (Hsplit : split (add_css className c) = a')
    by (rewrite Hcn; by apply split_join).
  assert (Hin : c ∈ a') by (apply Hmem; by right).
  assert (Hsame : add_css (add_css className c) c = add_css className c).
  { rewrite (Hadd (add_css className c)), Hsplit. unfold absent.
    rewrite bool_decide_eq_true_2 by done. cbn [negb]. by rewrite Hcn. }
  split; [|split; [|split; [|split]]].
  - rewrite Hcn. by apply has_css_tokens.
  - intros d Hd Hdc. apply eq_true_iff_eq.
    rewrite Hcn, (has_css_tokens a' d Hne Hall Hd).
    destruct (has_css_is_membership_aux className d Hd) as [Hm _].
    rewrite Hm, Hmem. tauto.
  - intros Hhas.
    destruct (has_css_is_membership_aux className c Hc) as [Hm _].
    apply Hm in Hhas. rewrite Hadd. unfold absent.
    rewrite bool_decide_eq_true_2 by done. apply join_split.
  - exact Hsame.
  - intros -> Hcne. rewrite Hadd. cbn [split]. unfold absent.
    rewrite bool_decide_eq_false_2
      by (intros H%list_elem_of_singleton; done).
    reflexivity.
Qed.

(** X19: [remove_css] with one non-empty class (no space in it).
    Afterwards the element does not have the class, and every other
    non-empty class is present exactly when it was before. *)
Theorem remove_css_removes_one_class className c :
  spaceless c -> c <> [] ->
  has_css (remove_css className c) c = false /\
  (forall d, spaceless d -> d <> [] -> d <> c ->
     has_css (remove_css className c) d = has_css className d).
Proof.
  intros Hc Hne.
  assert (Hrem : remove_css className c =
            join (List.filter (fun t => absent [c] t) (split className)))
    by (unfold remove_css; by rewrite (split_single c Hc)).
  assert (Hall : Forall spaceless
            (List.filter (fun t => absent [c] t) (split className))).
  { apply Forall_forall. intros t Ht.
    apply list_elem_of_In, filter_In in Ht as [Ht _].
    pose proof (split_spaceless className) as Hs.
    rewrite Forall_forall in Hs. apply Hs. by apply list_elem_of_In. }
  assert (Hmem : forall d, d ∈ List.filter (fun t => absent [c] t) (split className)
                           <-> d ∈ split className /\ d <> c).
  { intros d. rewrite list_elem_of_In, filter_In, <- list_elem_of_In.
    unfold absent. rewrite negb_true_iff, bool_decide_eq_false.
    by rewrite list_elem_of_singleton. }
  split.
  - apply not_true_iff_false. rewrite Hrem.
    rewrite (has_css_join _ c Hall Hc Hne), Hmem. tauto.
  - intros d Hd Hdne Hdc. apply eq_true_iff_eq.
    rewrite Hrem, (has_css_join _ d Hall Hd Hdne), Hmem.
    destruct (has_css_is_membership_aux className d Hd) as [Hm _].
    rewrite Hm. tauto.
Qed.

(** X20: removing a class right after adding it gives back the class
    name the element had, whenever the element did not have the class
    before. *)
Theorem remove_css_undoes_add_css className c :
  spaceless c ->
  has_css className c = false ->
  remove_css (add_css className c) c = className.
Proof.
  intros Hc Hhas.
  destruct (has_css_is_membership_aux className c Hc) as [Hm _].
  assert (Hnot : c ∉ split className).
  { intros Hin. apply Hm in Hin. congruence. }
  unfold remove_css, add_css. rewrite (split_single c Hc). cbn [fold_left].
  unfold absent at 2. rewrite bool_decide_eq_false_2 by done. cbn [negb].
  rewrite split_join.
  - rewrite List.filter_app. cbn [List.filter]. unfold absent at 2.
    rewrite bool_decide_eq_true_2 by (by apply list_elem_of_singleton).
    cbn [negb]. rewrite app_nil_r.
    rewrite (proj2 (forallb_filter_id_aux _ _)); [apply join_split|].
    intros t Ht. unfold absent. apply negb_true_iff, bool_decide_eq_false.
    intros ->%list_elem_of_singleton. done.
  - pose proof (split_nonempty className). by destruct (split className).
  - apply Forall_app. split; [apply split_spaceless | by constructor].
Qed.

End ClassNames.

(** ** The further properties on the sample data *)

Lemma sample_ring_AB (h : gmap nat links) :
  next (links_of h Sample.eA) = Obj Sample.eB ->
  prev (links_of h Sample.eA) = Obj Sample.eB ->
  next (links_of h Sample.eB) = Obj Sample.eA ->
  prev (links_of h Sample.eB) = Obj Sample.eA ->
  ring_over h [Sample.eA; Sample.eB].
Proof.
  intros H1 H2 H3 H4 i e He.
  destruct i as [|[|i]]; cbn in He; [| |done];
    injection He as <-; split; assumption.
Defined.

Lemma sample_NoDup_AB : NoDup (eid <$> [Sample.eA; Sample.eB]).
Proof. apply (bool_decide_unpack _). vm_compute. exact I. Defined.

Lemma make_store_nodes_builds_fresh_entries_witness :
  exists st w',
    make_store_nodes [Sample.rA; Sample.rB] (Sample.new_widget Select) = Ok st w' /\
    data <$> st = [Sample.rA; Sample.rB] /\
    eid <$> st = seq (S (auto_id (Sample.new_widget Select))) 2 /\
    NoDup (eid <$> st) /\
    auto_id w' = 2 + auto_id (Sample.new_widget Select) /\
    (forall e, e ∈ st -> links_of (heap w') e = Links Null Null) /\
    (forall e, eid e <= auto_id (Sample.new_widget Select) ->
       links_of (heap w') e = links_of (heap (Sample.new_widget Select)) e).
Proof.
  apply (make_store_nodes_builds_fresh_entries (Sample.new_widget Select)
           default_fn_label DefaultNode [Sample.rA; Sample.rB]);
    reflexivity.
Defined.

Lemma select_index_by_position_witness :
  exists w',
    select_index 1 Sample.select_AB_open = Ok tt w' /\
    emitted w' = emitted Sample.select_AB_open /\
    store w' = store Sample.select_AB_open /\
    active w' = active Sample.select_AB_open /\
    (forall e, [Sample.eA; Sample.eB] !! 1 = Some e ->
       item w' = Obj e /\ input_value w' = default_fn_label (data e)) /\
    (1 = length [Sample.eA; Sample.eB] -> item w' = Null /\ input_value w' = []) /\
    (length [Sample.eA; Sample.eB] < 1 ->
       item w' = Undefined /\ input_value w' = []) /\
    select_index 1 (set_store None Sample.select_AB_open) =
      TypeError (set_store None Sample.select_AB_open).
Proof.
  apply (select_index_by_position Sample.select_AB_open default_fn_label
           [Sample.eA; Sample.eB] 1);
    reflexivity.
Defined.

Lemma select_picks_first_accepted_witness :
  let delegate := fun (r : record) (_ : nat) => Nat.eqb (rec_key r) 2 in
  exists w',
    select delegate Sample.select_AB_open = Ok tt w' /\
    emitted w' = emitted Sample.select_AB_open /\
    ((exists i e,
        [Sample.eA; Sample.eB] !! i = Some e /\ delegate (data e) i = true /\
        (forall j e', j < i -> [Sample.eA; Sample.eB] !! j = Some e' ->
           delegate (data e') j = false) /\
        item w' = Obj e /\ input_value w' = default_fn_label (data e)) \/
     ((forall j e', [Sample.eA; Sample.eB] !! j = Some e' ->
         delegate (data e') j = false) /\
      item w' = Null /\ input_value w' = [])).
Proof.
  apply (select_picks_first_accepted Sample.select_AB_open default_fn_label
           [Sample.eA; Sample.eB]);
    reflexivity.
Defined.

Lemma store_assignment_on_a_selector_witness :
  exists st w',
    set_store_ [Sample.rA; Sample.rB] (Sample.new_widget Select) = Ok tt w' /\
    data <$> st = [Sample.rA; Sample.rB] /\
    store w' = Some st /\ items w' = Some st /\
    ring_over (heap w') st /\
    item w' = (match st with e :: _ => Obj e | [] => Null end) /\
    input_value w' = default_fn_label Sample.rA /\
    selected w' = Some Sample.rA /\
    first w' = Ok Sample.rA w' /\
    last w' = Ok Sample.rB w' /\
    emitted w' = emitted (Sample.new_widget Select) /\
    is_open w' = is_open (Sample.new_widget Select) /\
    active w' = active (Sample.new_widget Select).
Proof.
  apply (store_assignment_on_a_selector (Sample.new_widget Select)
           default_fn_label DefaultNode [Sample.rA; Sample.rB]);
    reflexivity.
Defined.

Lemma store_assignment_on_a_typeahead_witness :
  exists st w',
    set_store_ [Sample.rA; Sample.rB] (Sample.new_widget Typeahead) = Ok tt w' /\
    data <$> st = [Sample.rA; Sample.rB] /\
    store w' = Some st /\
    items w' = items (Sample.new_widget Typeahead) /\
    item w' = item (Sample.new_widget Typeahead) /\
    input_value w' = input_value (Sample.new_widget Typeahead) /\
    active w' = active (Sample.new_widget Typeahead) /\
    is_open w' = is_open (Sample.new_widget Typeahead) /\
    emitted w' = emitted (Sample.new_widget Typeahead) /\
    (forall e, eid e <= auto_id (Sample.new_widget Typeahead) ->
       links_of (heap w') e = links_of (heap (Sample.new_widget Typeahead)) e).
Proof.
  apply (store_assignment_on_a_typeahead (Sample.new_widget Typeahead)
           default_fn_label DefaultNode [Sample.rA; Sample.rB]);
    [discriminate | reflexivity | reflexivity].
Defined.

Lemma dismiss_resets_and_keeps_selection_witness :
  exists w',
    on_input_blur_handler Sample.select_AB_open = Ok tt w' /\
    on_input_key_down_handler Z.add Sample.ascii_lower Escape false
      Sample.select_AB_open = Ok tt w' /\
    (is_open Sample.select_AB_open = true ->
       on_input_click_handler Z.add Sample.ascii_lower Sample.select_AB_open =
         Ok tt w') /\
    active w' = Null /\ is_open w' = false /\
    attached w' = false /\ resize_listening w' = false /\
    items w' = Some [] /\
    input_value w' =
      (match item Sample.select_AB_open with
       | Obj e => default_fn_label (data e)
       | _ => []
       end) /\
    item w' = item Sample.select_AB_open /\
    emitted w' = emitted Sample.select_AB_open /\
    store w' = store Sample.select_AB_open.
Proof.
  apply (dismiss_resets_and_keeps_selection Z.add Sample.ascii_lower
           Sample.select_AB_open default_fn_label false).
  reflexivity.
Defined.

Lemma arrow_on_an_empty_list_witness :
  (cycle_when_closed Sample.select_empty_open = false ->
     on_input_key_down_handler Z.add Sample.ascii_lower ArrowDown false
       Sample.select_empty_open = Ok tt Sample.select_empty_open) /\
  (cycle_when_closed Sample.select_empty_open = true ->
   is_open Sample.select_empty_open = true ->
   nullish (active Sample.select_empty_open) ->
     on_input_key_down_handler Z.add Sample.ascii_lower ArrowDown false
       Sample.select_empty_open =
       TypeError (set_active Undefined Sample.select_empty_open)).
Proof.
  apply (arrow_on_an_empty_list Z.add Sample.ascii_lower
           Sample.select_empty_open ArrowDown);
    [by left | reflexivity].
Defined.

Lemma arrow_up_undoes_arrow_down_witness :
  Sample.exec Sample.typeahead_AB_on_A
    [KeyDown ArrowDown false; KeyDown ArrowUp false] =
    highlighted default_fn_label Sample.eA Sample.typeahead_AB_on_A /\
  Sample.exec Sample.typeahead_AB_on_A
    [KeyDown ArrowUp false; KeyDown ArrowDown false] =
    highlighted default_fn_label Sample.eA Sample.typeahead_AB_on_A.
Proof.
  apply (arrow_up_undoes_arrow_down Z.add Sample.ascii_lower
           Sample.typeahead_AB_on_A default_fn_label
           [Sample.eA; Sample.eB] 0 Sample.eA);
    try reflexivity.
  apply sample_ring_AB; vm_compute; reflexivity.
Defined.

Lemma closed_arrow_down_scrolls_the_options_witness :
  let w' := Sample.exec Sample.select_AB
              (replicate 3 (KeyDown ArrowDown false)) in
  item w' = index [Sample.eA; Sample.eB] (3 mod 2) /\
  emitted w' =
    emitted Sample.select_AB ++ scrolled_records [Sample.eA; Sample.eB] 3 /\
  is_open w' = false /\ nullish (active w').
Proof.
  apply (closed_arrow_down_scrolls_the_options Z.add Sample.ascii_lower
           Sample.select_AB default_fn_label [Sample.eA; Sample.eB]
           Sample.eA 3);
    try reflexivity.
  - apply sample_ring_AB; vm_compute; reflexivity.
  - exact sample_NoDup_AB.
Defined.

Lemma other_events_keep_the_selection_witness :
  item (step Z.add Sample.ascii_lower Sample.select_AB_open Click) =
    item Sample.select_AB_open /\
  emitted (step Z.add Sample.ascii_lower Sample.select_AB_open Click) =
    emitted Sample.select_AB_open.
Proof.
  apply (other_events_keep_the_selection Z.add Sample.ascii_lower
           Sample.select_AB_open Click).
  reflexivity.
Defined.

Lemma closed_selector_has_no_active_entry_witness :
  nullish (active (Sample.exec Sample.select_AB_open [FocusOut])).
Proof.
  apply (closed_selector_has_no_active_entry Z.add Sample.ascii_lower Select
           (Sample.exec Sample.select_AB_open [FocusOut])).
  - by left.
  - unfold Sample.exec, Sample.select_AB_open, Sample.exec, run, fold_left.
    repeat apply reachable_step. apply reachable_init.
  - reflexivity.
Defined.

Lemma keystrokes_are_coalesced_witness :
  let fired :=
    Sample.exec (Sample.new_widget Typeahead)
      ((Keystroke <$> [Sample.abc] ++ [Sample.abcd]) ++ [QuietPeriodOver]) in
  fired =
    set_timer false
      (state_of (on_input_input_handler Z.add Sample.ascii_lower Sample.abcd
                   (set_timer true
                      (set_input_value Sample.abcd (Sample.new_widget Typeahead))))) /\
  step Z.add Sample.ascii_lower fired QuietPeriodOver = fired.
Proof.
  apply (keystrokes_are_coalesced Z.add Sample.ascii_lower
           (Sample.new_widget Typeahead) [Sample.abc] Sample.abcd).
  discriminate.
Defined.

Lemma answer_rebuilds_store_and_visible_set_witness :
  let w' := step Z.add Sample.ascii_lower Sample.dynamic_two_asked
              (Fulfilled 0 [Sample.rA]) in
  exists st,
    data <$> st = [Sample.rA] /\
    eid <$> st = seq (S (auto_id Sample.dynamic_two_asked)) 1 /\
    store w' = Some st /\ items w' = Some st /\
    ring_over (heap w') st /\
    active w' = Null /\
    attached w' = true /\
    is_open w' = is_open Sample.dynamic_two_asked /\
    item w' = item Sample.dynamic_two_asked /\
    emitted w' = emitted Sample.dynamic_two_asked /\
    pending w' = delete 0 (pending Sample.dynamic_two_asked).
Proof.
  apply (answer_rebuilds_store_and_visible_set Z.add Sample.ascii_lower
           Sample.dynamic_two_asked default_fn_label DefaultNode 0
           Sample.abc [Sample.rA]);
    reflexivity.
Defined.

Lemma typeahead_click_with_selection_shows_store_witness :
  exists w',
    on_input_click_handler Z.add Sample.ascii_lower Sample.typeahead_AB_selected =
      Ok tt w' /\
    is_open w' = true /\ items w' = Some [Sample.eA; Sample.eB] /\
    active w' = Obj Sample.eA /\
    attached w' = true /\ resize_listening w' = true /\
    input_value w' = input_value Sample.typeahead_AB_selected /\
    item w' = item Sample.typeahead_AB_selected /\
    emitted w' = emitted Sample.typeahead_AB_selected.
Proof.
  apply (typeahead_click_with_selection_shows_store Z.add Sample.ascii_lower
           Sample.typeahead_AB_selected default_fn_label
           [Sample.eA; Sample.eB] Sample.eA);
    try reflexivity.
  discriminate.
Defined.

Lemma typeahead_click_without_match_only_marks_open_witness :
  on_input_click_handler Z.add Sample.ascii_lower Sample.typeahead_AB_xyz =
    Ok tt (set_is_open true Sample.typeahead_AB_xyz) /\
  exists w',
    on_input_click_handler Z.add Sample.ascii_lower
      (set_is_open true Sample.typeahead_AB_xyz) = Ok tt w' /\
    is_open w' = false.
Proof.
  apply (typeahead_click_without_match_only_marks_open Z.add Sample.ascii_lower
           Sample.typeahead_AB_xyz default_fn_label [Sample.eA; Sample.eB]);
    try reflexivity.
  intros e He Hc. apply includes_spec in Hc.
  apply elem_of_cons in He as [->|He]; [vm_compute in Hc; discriminate|].
  apply elem_of_cons in He as [->|He]; [vm_compute in Hc; discriminate|].
  by apply not_elem_of_nil in He.
Defined.

Lemma sample_spaceless_b : Dom.spaceless Sample.class_b.
Proof. apply (bool_decide_unpack _). vm_compute. exact I. Defined.

Lemma has_css_is_membership_witness :
  (Dom.has_css Sample.class_a_b Sample.class_b = true <->
   Sample.class_b ∈ Dom.split Sample.class_a_b) /\
  Dom.join (Dom.split Sample.class_a_b) = Sample.class_a_b.
Proof.
  apply (has_css_is_membership Sample.class_a_b Sample.class_b).
  exact sample_spaceless_b.
Defined.

Lemma add_css_adds_one_class_witness :
  Dom.has_css (Dom.add_css Sample.class_a_b Sample.class_b) Sample.class_b = true /\
  (forall d, Dom.spaceless d -> d <> Sample.class_b ->
     Dom.has_css (Dom.add_css Sample.class_a_b Sample.class_b) d =
       Dom.has_css Sample.class_a_b d) /\
  (Dom.has_css Sample.class_a_b Sample.class_b = true ->
     Dom.add_css Sample.class_a_b Sample.class_b = Sample.class_a_b) /\
  Dom.add_css (Dom.add_css Sample.class_a_b Sample.class_b) Sample.class_b =
    Dom.add_css Sample.class_a_b Sample.class_b /\
  (Sample.class_a_b = [] -> Sample.class_b <> [] ->
     Dom.add_css Sample.class_a_b Sample.class_b = Dom.space :: Sample.class_b).
Proof.
  apply (add_css_adds_one_class Sample.class_a_b Sample.class_b).
  exact sample_spaceless_b.
Defined.

Lemma remove_css_removes_one_class_witness :
  Dom.has_css (Dom.remove_css Sample.class_a_b Sample.class_b) Sample.class_b = false /\
  (forall d, Dom.spaceless d -> d <> [] -> d <> Sample.class_b ->
     Dom.has_css (Dom.remove_css Sample.class_a_b Sample.class_b) d =
       Dom.has_css Sample.class_a_b d).
Proof.
  apply (remove_css_removes_one_class Sample.class_a_b Sample.class_b).
  - exact sample_spaceless_b.
  - discriminate.
Defined.

Lemma remove_css_undoes_add_css_witness :
  Dom.remove_css (Dom.add_css Sample.class_a_b Sample.class_c) Sample.class_c =
    Sample.class_a_b.
Proof.
  apply (remove_css_undoes_add_css Sample.class_a_b Sample.class_c).
  - apply (bool_decide_unpack _). vm_compute. exact I.
  - reflexivity.
Defined.
